(** * scany (pgxscan): name normalisation, INSERT building, error mapping
      and the row scanner

    A shallow embedding of [pgxscan/pgxscan.go] and, for the parts of the
    repository whose code is not at hand (package [dbscan]), of the
    behaviour the specification gives them.

    Go strings are byte sequences: they are [string] here (a list of
    [ascii] bytes), and the functions that walk them work on
    [list ascii]. *)

From Stdlib Require Import ZArith Ascii String List Lia Bool Arith.
From Stdlib Require Import DecimalString.
From stdpp Require Import base option list gmap strings.

Import ListNotations.
Local Open Scope string_scope.
#[local] Set Warnings "-register-all".
Local Open Scope list_scope.

(* ===================================================================== *)
(** ** Bytes and character classes *)
(* ===================================================================== *)

Definition bytes := list ascii.

Definition in_range (lo hi c : ascii) : bool :=
  Nat.leb (nat_of_ascii lo) (nat_of_ascii c) && Nat.leb (nat_of_ascii c) (nat_of_ascii hi).

(** A bracket expression such as [[a-z0-9]]: the byte lies in one of the
    ranges. *)
Definition in_class (ranges : list (ascii * ascii)) (c : ascii) : bool :=
  existsb (fun r => in_range (fst r) (snd r) c) ranges.

Definition isUpper (c : ascii) : bool := in_class [("A", "Z")]%char c.
Definition isLower (c : ascii) : bool := in_class [("a", "z")]%char c.
Definition isDigit (c : ascii) : bool := in_class [("0", "9")]%char c.
Definition isLowerOrDigit (c : ascii) : bool :=
  in_class [("a", "z"); ("0", "9")]%char c.
Definition newline : ascii := ascii_of_nat 10.
Definition underscore : ascii := "_"%char.

(* ===================================================================== *)
(** ** Package [regexp]: the fragment the two patterns use *)
(* ===================================================================== *)

Module regexp.

(** Syntax trees of compiled patterns.  Only the operators that occur in
    [matchFirstCap] and [matchAllCap] are present; every tree of this
    fragment consumes at least one byte when it matches.

    Matching is on bytes.  Package [regexp] matches UTF-8 runes; the two
    patterns name ASCII classes only, and their [.] stands right before
    an ASCII capital and is copied back by the template, so on any text
    the byte before the capital plays the part of the rune that ends
    there. *)
Inductive Regexp : Type :=
| AnyCharNotNL                                  (* .        *)
| CharClass (ranges : list (ascii * ascii))     (* [a-z0-9] *)
| Concat (r1 r2 : Regexp)                       (* r1r2     *)
| Plus (r : Regexp)                             (* r+       *)
| Capture (n : nat) (r : Regexp).               (* (r), the n-th group *)

Record submatch : Type := Submatch {
  text : bytes;                     (* the bytes the pattern consumed *)
  rest : bytes;                     (* what follows them *)
  groups : list (nat * bytes)       (* the capture groups, by number *)
}.

Definition one_byte (ok : ascii -> bool) (s : bytes) : list submatch :=
  match s with
  | c :: s' => if ok c then [Submatch [c] s' []] else []
  | [] => []
  end.

Definition then_ (m1 m2 : submatch) : submatch :=
  Submatch (text m1 ++ text m2) (rest m2) (groups m1 ++ groups m2).

(** A match splits the text into what it consumed, which is not empty,
    and the rest. *)
Definition splits (s : bytes) (m : submatch) : Prop :=
  text m ++ rest m = s /\ text m <> [].

(** Greedy iteration of a pattern whose matches are given by [step]:
    one more round is tried before stopping.  Each round consumes a
    byte, so [S (length s)] rounds cover [s]. *)
Section Iterate.
Variable step : bytes -> list submatch.
Fixpoint iterate (fuel : nat) (s : bytes) : list submatch :=
  match fuel with
  | O => []
  | S fuel' =>
      flat_map (fun m1 => map (then_ m1) (iterate fuel' (rest m1)) ++ [m1])
               (step s)
  end.
End Iterate.

(** [exec r s]: every way [r] matches a prefix of [s], in the order a
    backtracking search tries them (greedy [+] prefers one more
    iteration).  The head of the list is the leftmost-first match that
    package [regexp] reports at this position. *)
Fixpoint exec (r : Regexp) (s : bytes) : list submatch :=
  match r with
  | AnyCharNotNL => one_byte (fun c => negb (Ascii.eqb c newline)) s
  | CharClass ranges => one_byte (in_class ranges) s
  | Concat r1 r2 =>
      flat_map (fun m1 => map (then_ m1) (exec r2 (rest m1))) (exec r1 s)
  | Plus r1 => iterate (exec r1) (S (length s)) s
  | Capture n r1 =>
      map (fun m => Submatch (text m) (rest m) ((n, text m) :: groups m))
          (exec r1 s)
  end.

(** Replacement templates, parsed: ["${1}_${2}"] is
    [[Group 1; Lit "_"; Group 2]]. *)
Inductive piece : Type :=
| Group (n : nat)
| Lit (s : bytes).

Fixpoint group (gs : list (nat * bytes)) (n : nat) : bytes :=
  match gs with
  | [] => []
  | (k, t) :: gs' => if Nat.eqb k n then t else group gs' n
  end.

Definition expand (template : list piece) (m : submatch) : bytes :=
  flat_map (fun p => match p with
                     | Group n => group (groups m) n
                     | Lit s => s
                     end) template.

(** The replacement loop: at each position, the pattern either matches
    there (this is then the leftmost match not overlapping the earlier
    ones: its expansion is emitted and the search resumes after it) or
    the byte is copied and the search moves one byte on.  A match
    consumes at least one byte, so [length src] rounds are enough. *)
Fixpoint replaceAll (fuel : nat) (re : Regexp) (template : list piece)
         (src : bytes) : bytes :=
  match fuel with
  | O => src
  | S fuel' =>
      match exec re src with
      | m :: _ => expand template m ++ replaceAll fuel' re template (rest m)
      | [] =>
          match src with
          | [] => []
          | c :: src' => c :: replaceAll fuel' re template src'
          end
      end
  end.

Definition ReplaceAllString (re : Regexp) (src : bytes)
           (template : list piece) : bytes :=
  replaceAll (S (length src)) re template src.

End regexp.

(* ===================================================================== *)
(** ** Package [strings] *)
(* ===================================================================== *)

Module strings.

Definition toLowerByte (c : ascii) : ascii :=
  if isUpper c then ascii_of_nat (nat_of_ascii c + 32) else c.

(** [strings.ToLower] on ASCII text, where it maps [A-Z] to [a-z] and
    keeps every other byte.  (On text with bytes above 127 Go applies
    [unicode.ToLower] rune by rune; that table is not embedded, and the
    statements below are about ASCII inputs.) *)
Definition ToLower (s : bytes) : bytes := map toLowerByte s.

Fixpoint Join (elems : list string) (sep : string) : string :=
  match elems with
  | [] => ""
  | [e] => e
  | e :: elems' => e ++ sep ++ Join elems' sep
  end.

End strings.

(* ===================================================================== *)
(** ** pgxscan.go: [toSnakeCase] *)
(* ===================================================================== *)

Import regexp.

(** [(.)([A-Z][a-z]+)] *)
Definition matchFirstCap : Regexp :=
  Concat (Capture 1 AnyCharNotNL)
         (Capture 2 (Concat (CharClass [("A", "Z")]%char)
                            (Plus (CharClass [("a", "z")]%char)))).

(** [([a-z0-9])([A-Z])] *)
Definition matchAllCap : Regexp :=
  Concat (Capture 1 (CharClass [("a", "z"); ("0", "9")]%char))
         (Capture 2 (CharClass [("A", "Z")]%char)).

(** ["${1}_${2}"] *)
Definition template_1_2 : list piece := [Group 1; Lit [underscore]; Group 2].

Definition toSnakeCase_bytes (str : bytes) : bytes :=
  let snake := ReplaceAllString matchFirstCap str template_1_2 in
  let snake := ReplaceAllString matchAllCap snake template_1_2 in
  strings.ToLower snake.

Definition toSnakeCase (str : string) : string :=
  string_of_list_ascii (toSnakeCase_bytes (list_ascii_of_string str)).

(** *** The two replacement passes as scanners

    [firstCapPass] and [allCapPass] are what the two [ReplaceAllString]
    calls of [toSnakeCase] compute, written as one left-to-right scan
    (shown below); [in_run] says that the scan is inside the [[a-z]+] run
    of a match of [matchFirstCap]. *)
Fixpoint firstCapPass (in_run : bool) (s : bytes) : bytes :=
  match s with
  | [] => []
  | c :: s' =>
      if in_run && isLower c then c :: firstCapPass true s'
      else
        match s' with
        | u :: l :: r =>
            if negb (Ascii.eqb c newline) && isUpper u && isLower l
            then c :: underscore :: u :: l :: firstCapPass true r
            else c :: firstCapPass false s'
        | _ => c :: firstCapPass false s'
        end
  end.

Fixpoint allCapPass (s : bytes) : bytes :=
  match s with
  | [] => []
  | c :: s' =>
      match s' with
      | u :: r =>
          if isLowerOrDigit c && isUpper u
          then c :: underscore :: u :: allCapPass r
          else c :: allCapPass s'
      | [] => [c]
      end
  end.

Fixpoint lower_run (s : bytes) : bytes :=
  match s with
  | l :: r => if isLower l then l :: lower_run r else []
  | [] => []
  end.

Fixpoint after_lower_run (s : bytes) : bytes :=
  match s with
  | l :: r => if isLower l then after_lower_run r else s
  | [] => []
  end.

(** Where the two passes together put an underscore: before the byte [d]
    that follows [c] and precedes [next]. *)
Definition inserts_before (c d : ascii) (next : option ascii) : bool :=
  isUpper d &&
  (isLowerOrDigit c ||
   (negb (Ascii.eqb c newline) && from_option isLower false next)).

Fixpoint underscored (c : ascii) (s : bytes) : bytes :=
  match s with
  | [] => [c]
  | d :: s' =>
      c :: (if inserts_before c d (head s') then [underscore] else [])
        ++ underscored d s'
  end.

(** *** The normalizer as the specification words it

    A word boundary lies before a capital letter that follows a lowercase
    letter or a digit, and before the capital that starts a lowercase run
    after an uppercase run. *)
Definition boundary (prev c : ascii) (next : option ascii) : bool :=
  isUpper c &&
  (isLower prev || isDigit prev ||
   (isUpper prev && from_option isLower false next)).

(** [segments c s]: the words of [c :: s]; the first one starts with [c]. *)
Fixpoint segments (c : ascii) (s : bytes) : list bytes :=
  match s with
  | [] => [[c]]
  | d :: s' =>
      if boundary c d (head s') then [c] :: segments d s'
      else match segments d s' with
           | w :: ws => (c :: w) :: ws
           | [] => [[c]]
           end
  end.

Definition words_bytes (s : bytes) : list bytes :=
  match s with
  | [] => []
  | c :: s' => segments c s'
  end.

Definition words (s : string) : list string :=
  map string_of_list_ascii (words_bytes (list_ascii_of_string s)).

Definition lowercase (s : string) : string :=
  string_of_list_ascii (strings.ToLower (list_ascii_of_string s)).

(** Lowercase words joined by underscores. *)
Definition snake_words (s : string) : string :=
  strings.Join (map lowercase (words s)) "_".

Definition isAlnum (c : ascii) : bool := isUpper c || isLower c || isDigit c.

(** An identifier made of word segments: letters and digits only. *)
Definition identifier (s : string) : Prop :=
  forallb isAlnum (list_ascii_of_string s) = true.

(** Already normalized: lowercase letters, digits and underscores only. *)
Definition normalized (s : string) : Prop :=
  forallb (fun c => isLower c || isDigit c || Ascii.eqb c underscore)
          (list_ascii_of_string s) = true.

(** [strings.Join] with ["_"], on bytes. *)
Fixpoint join_underscore (ws : list bytes) : bytes :=
  match ws with
  | [] => []
  | [w] => w
  | w :: ws' => w ++ underscore :: join_underscore ws'
  end.

Definition underscored_all (s : bytes) : bytes :=
  match s with
  | [] => []
  | c :: s' => underscored c s'
  end.

(* ===================================================================== *)
(** ** Errors: [github.com/pkg/errors] and the standard [errors] *)
(* ===================================================================== *)

Module errors.

(** Error values.  A value made by the standard [errors.New] is a pointer
    and is compared by identity: [id] stands for the allocation.  The
    stack that [withStack] and [fundamental] record is left out. *)
Inductive error : Type :=
| errorString (id : nat) (s : string)            (* errors.New of the standard library *)
| fundamental (msg : string)                     (* New *)
| withMessage (cause : error) (msg : string)     (* WithMessage *)
| withStack (err : error).                       (* WithStack *)

#[export] Instance error_eq_dec : EqDecision error.
Proof. solve_decision. Defined.

(** A Go [error] is an interface value: [None] is [nil]. *)
Definition goerror := option error.

Definition New (message : string) : goerror := Some (fundamental message).

Definition WithStack (err : goerror) : goerror :=
  match err with
  | None => None
  | Some e => Some (withStack e)
  end.

Definition Wrap (err : goerror) (message : string) : goerror :=
  match err with
  | None => None
  | Some e => Some (withStack (withMessage e message))
  end.

(** [Unwrap] of the two wrappers; the other values have no such method. *)
Definition Unwrap (e : error) : option error :=
  match e with
  | withMessage cause _ => Some cause
  | withStack err => Some err
  | _ => None
  end.

(** The loop of [errors.Is]: compare, unwrap, repeat. *)
Fixpoint is_ (err target : error) : bool :=
  if bool_decide (err = target) then true
  else match err with
       | withMessage cause _ => is_ cause target
       | withStack err' => is_ err' target
       | _ => false
       end.

Definition Is (err target : goerror) : bool :=
  match err, target with
  | Some e, Some t => is_ e t
  | None, None => true
  | _, _ => false
  end.

(** [Wraps e t]: [t] is [e] or is reached from [e] by unwrapping. *)
Inductive Wraps : error -> error -> Prop :=
| Wraps_self e : Wraps e e
| Wraps_unwrap e e' t : Unwrap e = Some e' -> Wraps e' t -> Wraps e t.

End errors.

(* ===================================================================== *)
(** ** Package [reflect]: kinds, struct fields and field values *)
(* ===================================================================== *)

Module reflect.

Inductive Kind : Type :=
| Invalid | Bool
| Int | Int8 | Int16 | Int32 | Int64
| Uint | Uint8 | Uint16 | Uint32 | Uint64 | Uintptr
| Float32 | Float64 | Complex64 | Complex128
| Array | Chan | Func | Interface | Map | Ptr | Slice
| String | Struct | UnsafePointer.

(** [Kind.String] *)
Definition Kind_String (k : Kind) : string :=
  match k with
  | Invalid => "invalid" | Bool => "bool"
  | Int => "int" | Int8 => "int8" | Int16 => "int16" | Int32 => "int32"
  | Int64 => "int64"
  | Uint => "uint" | Uint8 => "uint8" | Uint16 => "uint16"
  | Uint32 => "uint32" | Uint64 => "uint64" | Uintptr => "uintptr"
  | Float32 => "float32" | Float64 => "float64"
  | Complex64 => "complex64" | Complex128 => "complex128"
  | Array => "array" | Chan => "chan" | Func => "func"
  | Interface => "interface" | Map => "map" | Ptr => "ptr"
  | Slice => "slice" | String => "string" | Struct => "struct"
  | UnsafePointer => "unsafe.Pointer"
  end.

(** A struct tag in its conventional form [key:"value" key:"value"],
    parsed into its pairs. *)
Definition StructTag := list (string * string).

(** [StructTag.Lookup]: the value of the first pair with this key. *)
Fixpoint Lookup (tag : StructTag) (key : string) : option string :=
  match tag with
  | [] => None
  | (k, v) :: tag' => if String.eqb k key then Some v else Lookup tag' key
  end.

Record StructField : Type := {
  Name : string;
  Tag : StructTag
}.

End reflect.

(* ===================================================================== *)
(** ** Package [strconv] *)
(* ===================================================================== *)

Module strconv.

(** [strconv.FormatInt(i, 10)] *)
Definition FormatInt10 (i : Z) : string := NilZero.string_of_int (Z.to_int i).

End strconv.

(* ===================================================================== *)
(** ** [pgx]: rows and their field descriptions *)
(* ===================================================================== *)

Module pgx.

(** [pgproto3.FieldDescription] *)
Record FieldDescription : Type := {
  Name : list Byte.byte;
  TableOID : Z;
  DataTypeOID : Z
}.

(** What the adapter reads of a [pgx.Rows] value (an interface value that
    is not nil): its field descriptions, the same at every call, and
    whether it has been closed. *)
Record Rows : Type := {
  FieldDescriptions : list FieldDescription;
  closed : bool
}.

(** [var ErrNoRows = errors.New("no rows in result set")] *)
Definition ErrNoRows : errors.error :=
  errors.errorString 0 "no rows in result set".

End pgx.

(* ===================================================================== *)
(** ** pgxscan.go: [Insert] *)
(* ===================================================================== *)

Section Insert.

(** Go's [float64] and [fmt.Sprintf("%f", _)] on it are taken as given. *)
Variable float64 : Type.
Variable Sprintf_f : float64 -> string.

(** The [reflect.Value] of a struct field: its kind and what the
    accessors [String], [Int] and [Float] return.  The code calls an
    accessor only under the matching kind. *)
Record Value : Type := {
  Kind : reflect.Kind;
  String_ : string;
  Int_ : Z;
  Float_ : float64
}.

(** The struct [data] as [reflect.TypeOf] and [reflect.ValueOf] show it:
    its fields in declaration order, each with its value.  ([Insert]
    panics in [NumField] on a [data] that is not a struct.) *)
Definition StructData := list (reflect.StructField * Value).

(** [db.Query(ctx, sql)], as far as [Insert] looks at it: the error. *)
Definition Querier := string -> errors.goerror.

(** What a call of [Insert] does: the statements it sent to [db], in
    order, and the error it returned. *)
Record InsertOutcome : Type := {
  sent : list string;
  returned : errors.goerror
}.

(** The [for i := 0; i < num; i++] loop, on the fields not yet visited;
    [inl] is the early [return] of the [default] case. *)
Fixpoint Insert_loop (fields : StructData) (dbCols dbVals : list string)
  : errors.goerror + (list string * list string) :=
  match fields with
  | [] => inr (dbCols, dbVals)
  | (field, value) :: fields' =>
      let dbCols :=
        match reflect.Lookup (reflect.Tag field) "pgx" with
        | Some val => dbCols ++ [val]
        | None => dbCols ++ [toSnakeCase (reflect.Name field)]
        end in
      let continue (v : string) := Insert_loop fields' dbCols (dbVals ++ [v]) in
      match Kind value with
      | reflect.String => continue ("'" ++ String_ value ++ "'")%string
      | reflect.Int => continue (strconv.FormatInt10 (Int_ value))
      | reflect.Int8 => continue (strconv.FormatInt10 (Int_ value))
      | reflect.Int32 => continue (strconv.FormatInt10 (Int_ value))
      | reflect.Int64 => continue (strconv.FormatInt10 (Int_ value))
      | reflect.Float64 => continue (Sprintf_f (Float_ value))
      | reflect.Float32 => continue (Sprintf_f (Float_ value))
      | k =>
          inl (errors.Wrap
                 (errors.New ("type: " ++ reflect.Kind_String k ++ " unsupported")%string)
                 "scany: this type not yet supported")
      end
  end.

Definition Insert (db : Querier) (data : StructData)
           (table additionalQuery : string) : InsertOutcome :=
  match Insert_loop data [] [] with
  | inl err => {| sent := []; returned := err |}
  | inr (dbCols, dbVals) =>
      let sql := ("INSERT INTO " ++ table ++ " (" ++ strings.Join dbCols ", "
                  ++ ") VALUES (" ++ strings.Join dbVals ", " ++ ") "
                  ++ additionalQuery)%string in
      let err := db sql in
      {| sent := [sql];
         returned := match err with
                     | Some _ => errors.Wrap err "scany: insertion error"
                     | None => errors.WithStack err
                     end |}
  end.

(** *** [Insert] as the specification words it *)

(** The kinds [Insert] renders. *)
Definition supported (k : reflect.Kind) : bool :=
  match k with
  | reflect.String | reflect.Int | reflect.Int8 | reflect.Int32
  | reflect.Int64 | reflect.Float32 | reflect.Float64 => true
  | _ => false
  end.

(** The column of a field: its [pgx] tag when present, else the
    snake-cased field name. *)
Definition column_of (field : reflect.StructField) : string :=
  match reflect.Lookup (reflect.Tag field) "pgx" with
  | Some val => val
  | None => toSnakeCase (reflect.Name field)
  end.

(** The text of a field value: strings between single quotes, integers
    in decimal, floats by [%f]. *)
Definition text_of (value : Value) : string :=
  match Kind value with
  | reflect.String => ("'" ++ String_ value ++ "'")%string
  | reflect.Float32 | reflect.Float64 => Sprintf_f (Float_ value)
  | _ => strconv.FormatInt10 (Int_ value)
  end.

Definition statement (table : string) (columns values : list string)
           (additionalQuery : string) : string :=
  ("INSERT INTO " ++ table ++ " (" ++ strings.Join columns ", "
   ++ ") VALUES (" ++ strings.Join values ", " ++ ") " ++ additionalQuery)%string.

Definition unsupported_error (k : reflect.Kind) : errors.error :=
  errors.withStack
    (errors.withMessage
       (errors.fundamental ("type: " ++ reflect.Kind_String k ++ " unsupported")%string)
       "scany: this type not yet supported").

End Insert.

Arguments Kind {float64} _.
Arguments String_ {float64} _.
Arguments Int_ {float64} _.
Arguments Float_ {float64} _.
Arguments Insert {float64} _ _ _ _ _.
Arguments Insert_loop {float64} _ _ _ _.
Arguments column_of _ : clear implicits.
Arguments text_of {float64} _ _.

(* ===================================================================== *)
(** ** pgxscan.go: [RowsAdapter], [ScanOne], [NotFound] *)
(* ===================================================================== *)

(** [type RowsAdapter struct { pgx.Rows }] *)
Record RowsAdapter : Type := { Rows : pgx.Rows }.

Definition NewRowsAdapter (rows : pgx.Rows) : RowsAdapter := {| Rows := rows |}.

(** The [for i, fd := range ...] loop of [Columns], from index [i] on. *)
Fixpoint Columns_loop (i : nat) (fds : list pgx.FieldDescription)
         (columns : list string) : list string :=
  match fds with
  | [] => columns
  | fd :: fds' =>
      Columns_loop (S i) fds' (<[i := string_of_list_byte (pgx.Name fd)]> columns)
  end.

Definition Columns (ra : RowsAdapter) : list string * errors.goerror :=
  let columns := replicate (length (pgx.FieldDescriptions (Rows ra))) ""%string in
  let columns := Columns_loop 0 (pgx.FieldDescriptions (Rows ra)) columns in
  (columns, None).

(** [Close]: closes the rows and returns [nil]. *)
Definition Close (ra : RowsAdapter) : RowsAdapter * errors.goerror :=
  ({| Rows := {| pgx.FieldDescriptions := pgx.FieldDescriptions (Rows ra);
                 pgx.closed := true |} |}, None).

Section ScanOne.

(** Package [dbscan] is not at hand: its [ScanOne] and [NotFound] are
    taken as given.  [dbscan.ScanOne] fills the destination and returns
    an error. *)
Variable Dst : Type.
Variable dbscan_ScanOne : Dst -> RowsAdapter -> Dst * errors.goerror.
Variable dbscan_NotFound : errors.goerror -> bool.

Definition ScanOne (dst : Dst) (rows : pgx.Rows) : Dst * errors.goerror :=
  let '(dst, err) := dbscan_ScanOne dst (NewRowsAdapter rows) in
  if dbscan_NotFound err
  then (dst, errors.WithStack (Some pgx.ErrNoRows))
  else (dst, errors.WithStack err).

End ScanOne.

Arguments ScanOne {Dst} _ _ _ _.

Definition NotFound (err : errors.goerror) : bool :=
  errors.Is err (Some pgx.ErrNoRows).

(* ===================================================================== *)
(** ** pgxscan.go: [Select], [Get], [ScanAll], [ScanRow] *)
(* ===================================================================== *)

Section Wrappers.

(** As for [ScanOne], the functions of package [dbscan] are taken as
    given: each fills the destination and returns an error.  [Arg] is
    the type of the query arguments. *)
Variable Dst : Type.
Variable Arg : Type.
Variable dbscan_ScanAll : Dst -> RowsAdapter -> Dst * errors.goerror.
Variable dbscan_ScanOne : Dst -> RowsAdapter -> Dst * errors.goerror.
Variable dbscan_ScanRow : Dst -> RowsAdapter -> Dst * errors.goerror.
Variable dbscan_NotFound : errors.goerror -> bool.

(** [db.Query(ctx, query, args...)] with both its results. *)
Definition RowsQuerier := string -> list Arg -> pgx.Rows * errors.goerror.

Definition ScanAll (dst : Dst) (rows : pgx.Rows) : Dst * errors.goerror :=
  let '(dst, err) := dbscan_ScanAll dst (NewRowsAdapter rows) in
  (dst, errors.WithStack err).

Definition ScanRow (dst : Dst) (rows : pgx.Rows) : Dst * errors.goerror :=
  let '(dst, err) := dbscan_ScanRow dst (NewRowsAdapter rows) in
  (dst, errors.WithStack err).

Definition Select (db : RowsQuerier) (dst : Dst) (query : string)
           (args : list Arg) : Dst * errors.goerror :=
  let '(rows, err) := db query args in
  match err with
  | Some _ => (dst, errors.Wrap err "scany: query multiple result rows")
  | None =>
      let '(dst, err) := ScanAll dst rows in
      (dst, errors.WithStack err)
  end.

Definition Get (db : RowsQuerier) (dst : Dst) (query : string)
           (args : list Arg) : Dst * errors.goerror :=
  let '(rows, err) := db query args in
  match err with
  | Some _ => (dst, errors.Wrap err "scany: query one result row")
  | None =>
      let '(dst, err) := ScanOne dbscan_ScanOne dbscan_NotFound dst rows in
      (dst, errors.WithStack err)
  end.

End Wrappers.

Arguments ScanAll {Dst} _ _ _.
Arguments ScanRow {Dst} _ _ _.
Arguments Select {Dst Arg} _ _ _ _ _.
Arguments Get {Dst Arg} _ _ _ _ _ _.

(** An error value that wraps nothing: the sentinels that callers compare
    against with [errors.Is]. *)
Definition sentinel (e : errors.error) : Prop := errors.Unwrap e = None.

(* ===================================================================== *)
(** ** [RowsAdapter.Columns] with Go's index check *)
(* ===================================================================== *)

(** The loop of [Columns] where an assignment [columns[i] = ...] outside
    the slice is the run-time panic it is in Go: [None]. *)
Fixpoint Columns_loop_checked (i : nat) (fds : list pgx.FieldDescription)
         (columns : list string) : option (list string) :=
  match fds with
  | [] => Some columns
  | fd :: fds' =>
      if decide (i < length columns)
      then Columns_loop_checked
             (S i) fds' (<[i := string_of_list_byte (pgx.Name fd)]> columns)
      else None
  end.

Definition Columns_checked (ra : RowsAdapter)
  : option (list string * errors.goerror) :=
  let columns := replicate (length (pgx.FieldDescriptions (Rows ra))) ""%string in
  match Columns_loop_checked 0 (pgx.FieldDescriptions (Rows ra)) columns with
  | Some columns => Some (columns, None)
  | None => None
  end.

(* ===================================================================== *)
(** ** ASCII text *)
(* ===================================================================== *)

(** Text whose bytes are all below 128: where the embedding of
    [strings.ToLower] is the function of Go. *)
Definition ascii_text (s : string) : Prop :=
  forallb (fun c => Nat.ltb (nat_of_ascii c) 128) (list_ascii_of_string s) = true.

Definition not_underscore (c : ascii) : bool := negb (Ascii.eqb c underscore).

(* ===================================================================== *)
(** ** Package [dbscan]: the row-to-destination engine

    The code of this package is not at hand (only its tests are); the
    definitions of this module follow the specification, section by
    section. *)
(* ===================================================================== *)

Module dbscan.

(** Modelled from the spec: the native values a row source hands over
    (§6, [populate]); the engine does not look into them. *)
Inductive native : Type :=
| Null
| Text (s : string)
| Number (n : Z)
| Composite (payload : string).

(** Modelled from the spec: the error taxonomy of §7. *)
Inductive Error : Type :=
| InvalidDestination (message : string)
| DuplicateColumnMapping (column : string) (first second : list nat)
| UnmappedColumn (column : string)
| DuplicateColumn (column : string)
| InvalidScanRowCount (columns : nat)
| NotFound
| TooManyRows
| RowSourceError (message : string).

(** Modelled from the spec: the members of a struct-like shape (§3): a
    leaf (a scalar or opaque value, whatever its type), or an embedded
    member, by value or by pointer, with the members of the struct it
    embeds.  [tag] is the explicit name override, [exported] says whether
    the member is promotable. *)
Inductive member : Type :=
| Field (name : string) (tag : option string) (exported : bool)
| Embedded (name : string) (tag : option string) (exported : bool)
           (by_pointer : bool) (members : list member).

(** An access path: member offsets, in declaration order, from the root. *)
Definition path := list nat.

(** Modelled from the spec: the final key of a column name under a prefix
    (§4.3 step 1). *)
Definition key (prefix name : string) : string :=
  if String.eqb prefix "" then name else (prefix ++ "." ++ name)%string.

Definition below (i : nat) (leaf : string * path) : string * path :=
  (fst leaf, i :: snd leaf).

(** Modelled from the spec: the resolution algorithm of §4.3, depth first
    over the members in declaration order, carrying [prefix].  The result
    lists every resolved leaf with its column name, in the order met. *)
Fixpoint resolve_member (prefix : string) (m : member) : list (string * path) :=
  match m with
  | Field name tag exported =>
      if exported then
        match tag with
        | Some t => if String.eqb t "-" then [] else [(key prefix t, [])]
        | None => [(key prefix (toSnakeCase name), [])]
        end
      else []
  | Embedded name tag exported _ members =>
      let inside (prefix' : string) :=
        (fix each (i : nat) (ms : list member) : list (string * path) :=
           match ms with
           | [] => []
           | m' :: ms' =>
               map (below i) (resolve_member prefix' m') ++ each (S i) ms'
           end) 0 members in
      if exported then
        match tag with
        | Some t => if String.eqb t "-" then [] else inside (prefix ++ t)%string
        | None => inside prefix
        end
      else []
  end.

Fixpoint resolve_members (prefix : string) (i : nat) (ms : list member)
  : list (string * path) :=
  match ms with
  | [] => []
  | m :: ms' =>
      map (below i) (resolve_member prefix m) ++ resolve_members prefix (S i) ms'
  end.

Definition resolve (ms : list member) : list (string * path) :=
  resolve_members "" 0 ms.

(** A field index: normalized column name to access path. *)
Abbreviation index := (gmap string path).

(** Modelled from the spec: entering the resolved leaves into the index;
    a second claim on a column name is the fatal [DuplicateColumnMapping],
    which carries both paths (§4.3 step 5). *)
Fixpoint enter (leaves : list (string * path)) (idx : index) : Error + index :=
  match leaves with
  | [] => inr idx
  | (column, p) :: leaves' =>
      match idx !! column with
      | Some q => inl (DuplicateColumnMapping column q p)
      | None => enter leaves' (<[column := p]> idx)
      end
  end.

(** Modelled from the spec: the Struct Field Index of a shape (§4.3).
    It is a function of the shape alone; the process-wide cache that
    keeps its result is not represented. *)
Definition build_index (ms : list member) : Error + index :=
  enter (resolve ms) ∅.

(** Modelled from the spec: destination values as the engine walks them:
    a leaf holds a native value, an embedded struct its members' values,
    an embedded pointer is nil ([None]) or holds the members' values of
    its target. *)
Inductive value : Type :=
| Leaf (x : native)
| Struct (fields : list value)
| Pointer (target : option (list value)).

(** The zero value of a member: a nil pointer for a member embedded by
    pointer. *)
Fixpoint zero (m : member) : value :=
  match m with
  | Field _ _ _ => Leaf Null
  | Embedded _ _ _ by_pointer members =>
      if by_pointer then Pointer None else Struct (map zero members)
  end.

(** [fits m v]: [v] is a value of member [m]. *)
Inductive fits : member -> value -> Prop :=
| fits_field name tag exported x :
    fits (Field name tag exported) (Leaf x)
| fits_struct name tag exported members fields :
    Forall2 fits members fields ->
    fits (Embedded name tag exported false members) (Struct fields)
| fits_nil name tag exported members :
    fits (Embedded name tag exported true members) (Pointer None)
| fits_pointer name tag exported members fields :
    Forall2 fits members fields ->
    fits (Embedded name tag exported true members) (Pointer (Some fields)).

(** Modelled from the spec: the kinds of mapping keys (§4.2). *)
Inductive key_type : Type :=
| StringKey
| OtherKey (name : string).

(** Modelled from the spec: the destinations (§3), already addressable:
    a struct with its shape, a mapping with its key type, or a scalar. *)
Inductive destination : Type :=
| StructDst (ms : list member) (fields : list value)
| MapDst (keys : key_type) (entries : gmap string native)
| ScalarDst (x : native).

Inductive shape : Type :=
| StructLike (ms : list member)
| MappingLike
| ScalarLike.

(** Modelled from the spec: the Destination Classifier (§4.2) on
    addressable destinations; a mapping whose keys are not strings is
    refused with a message naming the key type. *)
Definition classify (d : destination) : Error + shape :=
  match d with
  | StructDst ms _ => inr (StructLike ms)
  | MapDst StringKey _ => inr MappingLike
  | MapDst (OtherKey name) _ =>
      inl (InvalidDestination ("map must have string key, got: " ++ name)%string)
  | ScalarDst _ => inr ScalarLike
  end.

(** Modelled from the spec: one row of the row source (§6): its cells in
    column order, each with its column name, and the failure, if any,
    with which [populate] answers. *)
Record row : Type := {
  cells : list (string * native);
  fault : option string
}.

Definition columns (r : row) : list string := map fst (cells r).

Definition populate (r : row) : Error + list native :=
  match fault r with
  | Some message => inl (RowSourceError message)
  | None => inr (map snd (cells r))
  end.

(** The first column name that repeats an earlier one. *)
Fixpoint repeated (seen : gset string) (cols : list string) : option string :=
  match cols with
  | [] => None
  | c :: cols' =>
      if decide (c ∈ seen) then Some c else repeated ({[c]} ∪ seen) cols'
  end.

(** Modelled from the spec: the receivers of a struct destination (§4.4):
    the access path of each column, [UnmappedColumn] for a column the
    index does not have. *)
Fixpoint bind (idx : index) (cols : list string) : Error + list path :=
  match cols with
  | [] => inr []
  | c :: cols' =>
      match idx !! c with
      | None => inl (UnmappedColumn c)
      | Some p =>
          match bind idx cols' with
          | inl e => inl e
          | inr ps => inr (p :: ps)
          end
      end
  end.

(** Reading the value at an access path; a nil pointer on the way has
    nothing beneath it. *)
Fixpoint read (fields : list value) (p : path) : option value :=
  match p with
  | [] => None
  | i :: p' =>
      match fields !! i with
      | None => None
      | Some v =>
          match p' with
          | [] => Some v
          | _ :: _ =>
              match v with
              | Struct inner => read inner p'
              | Pointer (Some inner) => read inner p'
              | _ => None
              end
          end
      end
  end.

(** Modelled from the spec: writing one populated value through its
    access path (§4.4, §9): a nil pointer on the way is allocated (the
    zero struct) and linked at this moment, not before. *)
Fixpoint write (ms : list member) (fields : list value) (p : path) (x : native)
  : list value :=
  match p with
  | [] => fields
  | i :: p' =>
      match p' with
      | [] => <[i := Leaf x]> fields
      | _ :: _ =>
          match ms !! i, fields !! i with
          | Some (Embedded _ _ _ _ ms'), Some (Struct inner) =>
              <[i := Struct (write ms' inner p' x)]> fields
          | Some (Embedded _ _ _ _ ms'), Some (Pointer (Some inner)) =>
              <[i := Pointer (Some (write ms' inner p' x))]> fields
          | Some (Embedded _ _ _ _ ms'), Some (Pointer None) =>
              <[i := Pointer (Some (write ms' (map zero ms') p' x))]> fields
          | _, _ => fields
          end
      end
  end.

(** [leaf_path ms p]: [p] leads through embedded members of [ms] to a
    leaf. *)
Fixpoint leaf_path (ms : list member) (p : path) : Prop :=
  match p with
  | [] => False
  | i :: p' =>
      match ms !! i with
      | Some (Field _ _ _) => p' = []
      | Some (Embedded _ _ _ _ ms') => leaf_path ms' p'
      | None => False
      end
  end.

(** Committing the bound receivers once the row source has populated
    them, in column order. *)
Fixpoint commit (ms : list member) (fields : list value)
         (bound : list (path * native)) : list value :=
  match bound with
  | [] => fields
  | (p, x) :: bound' => commit ms (write ms fields p x) bound'
  end.

(** Modelled from the spec: the Row Materializer (§4.4).  It answers
    with the destination after the row and the error, if any; on an
    error nothing has been written. *)
Definition materialize (idx : index) (r : row) (d : destination)
  : destination * option Error :=
  match repeated ∅ (columns r) with
  | Some c => (d, Some (DuplicateColumn c))
  | None =>
      match d with
      | StructDst ms fields =>
          match bind idx (columns r) with
          | inl e => (d, Some e)
          | inr paths =>
              match populate r with
              | inl e => (d, Some e)
              | inr xs => (StructDst ms (commit ms fields (zip paths xs)), None)
              end
          end
      | MapDst keys entries =>
          match populate r with
          | inl e => (d, Some e)
          | inr xs =>
              (MapDst keys
                      (foldl (fun m cx => <[fst cx := snd cx]> m) entries
                             (zip (columns r) xs)),
               None)
          end
      | ScalarDst _ =>
          match columns r with
          | [_] =>
              match populate r with
              | inl e => (d, Some e)
              | inr xs => (ScalarDst (default Null (head xs)), None)
              end
          | cols => (d, Some (InvalidScanRowCount (length cols)))
          end
      end
  end.

(** Modelled from the spec: the start hook (§4.5): shape classification
    and field-index resolution against the destination of the first row.
    Only a struct-like shape has members to index. *)
Definition start_hook := destination -> Error + index.

Definition default_start : start_hook :=
  fun d =>
    match classify d with
    | inl e => inl e
    | inr (StructLike ms) => build_index ms
    | inr _ => inr ∅
    end.

Inductive ScannerState : Type :=
| NotStarted
| Started.

(** Modelled from the spec: the Row Scanner (§3, §4.5): its state, the
    injectable start hook, and what the hook produced at the transition
    (the cached index, or the error of the resolution). *)
Record RowScanner : Type := {
  state : ScannerState;
  start : start_hook;
  resolved : Error + index
}.

Definition NewRowScanner : RowScanner :=
  {| state := NotStarted; start := default_start; resolved := inr ∅ |}.

Definition SetStartFn (rs : RowScanner) (h : start_hook) : RowScanner :=
  {| state := state rs; start := h; resolved := resolved rs |}.

(** [Started()], the accessor. *)
Definition is_started (rs : RowScanner) : bool :=
  match state rs with
  | Started => true
  | NotStarted => false
  end.

(** What one [ScanRow] did: the scanner and the destination after it,
    the error it failed with, and whether it invoked the start hook. *)
Record scanned : Type := {
  scanner : RowScanner;
  dest : destination;
  failure : option Error;
  hook_invoked : bool
}.

(** Modelled from the spec: [ScanRow] (§4.5): "on [NotStarted], invoke
    the start hook, transition to [Started]; on any state, perform Row
    Materializer binding against the current row and commit.  Fails with
    whatever the start hook or materializer produced".  The spec makes
    the transition part of the first row processed, with no case apart
    for a hook that fails: the scanner is [Started] after it, and what the
    hook produced is kept. *)
Definition ScanRow (rs : RowScanner) (r : row) (d : destination) : scanned :=
  let rs' :=
    match state rs with
    | NotStarted =>
        {| state := Started; start := start rs; resolved := start rs d |}
    | Started => rs
    end in
  let invoked :=
    match state rs with
    | NotStarted => true
    | Started => false
    end in
  match resolved rs' with
  | inl e =>
      {| scanner := rs'; dest := d; failure := Some e; hook_invoked := invoked |}
  | inr idx =>
      let '(d', err) := materialize idx r d in
      {| scanner := rs'; dest := d'; failure := err; hook_invoked := invoked |}
  end.

(** The calls a client makes on one scanner. *)
Inductive call : Type :=
| CallScanRow (r : row) (d : destination)
| CallSetStartFn (h : start_hook).

(** The [ScanRow] results of a sequence of calls, in order. *)
Fixpoint run (rs : RowScanner) (calls : list call) : list scanned :=
  match calls with
  | [] => []
  | CallScanRow r d :: calls' =>
      let s := ScanRow rs r d in s :: run (scanner s) calls'
  | CallSetStartFn h :: calls' => run (SetStartFn rs h) calls'
  end.

(** The row and the destination of each [ScanRow] among the calls, in
    order. *)
Fixpoint scans (calls : list call) : list (row * destination) :=
  match calls with
  | [] => []
  | CallScanRow r d :: calls' => (r, d) :: scans calls'
  | CallSetStartFn _ :: calls' => scans calls'
  end.

(** The hook in place when the first [ScanRow] among the calls is made,
    and the destination handed to that [ScanRow]; [h] is the hook in place
    before the calls. *)
Fixpoint first_scan (h : start_hook) (calls : list call)
  : option (start_hook * destination) :=
  match calls with
  | [] => None
  | CallScanRow _ d :: _ => Some (h, d)
  | CallSetStartFn h' :: calls' => first_scan h' calls'
  end.

End dbscan.

(** What a struct tag says for a key, read off the tag itself: the value
    of the first pair under that key ([reflect.StructTag.Lookup] stops at
    the first one). *)
Inductive tag_has (key : string) : reflect.StructTag -> string -> Prop :=
| tag_here (val : string) (tag : reflect.StructTag) :
    tag_has key ((key, val) :: tag) val
| tag_later (k v val : string) (tag : reflect.StructTag) :
    k <> key -> tag_has key tag val -> tag_has key ((k, v) :: tag) val.

(** The tag has no pair under the key. *)
Definition tag_lacks (key : string) (tag : reflect.StructTag) : Prop :=
  forall val : string, ~ In (key, val) tag.

(** A member that the resolution passes over: unexported, or carrying
    the ignore marker. *)
Definition passed_over (m : dbscan.member) : Prop :=
  match m with
  | dbscan.Field _ tag exported
  | dbscan.Embedded _ tag exported _ _ => exported = false \/ tag = Some "-"
  end.

(* ===================================================================== *)
(** ** Sample data: the README's user and the cases of the test suite *)
(* ===================================================================== *)

Module samples.
Import dbscan.

Definition user_1 : StructData unit :=
  [({| reflect.Name := "ID"; reflect.Tag := [("pgx", "id")] |},
    {| Kind := reflect.String; String_ := "user_1"; Int_ := 0; Float_ := tt |});
   ({| reflect.Name := "UserAge"; reflect.Tag := [] |},
    {| Kind := reflect.Int; String_ := ""; Int_ := 40; Float_ := tt |})].

(** A user in the manner of the README's [User]: [ID], [Name] and [Email]
    carry a [pgx] tag ([Name] after a [json] one), [UserAge] is tagged for
    [json] only, [Score] carries no tag. *)
Definition tagged_user : StructData unit :=
  [({| reflect.Name := "ID"; reflect.Tag := [("pgx", "id")] |},
    {| Kind := reflect.String; String_ := "user_1"; Int_ := 0; Float_ := tt |});
   ({| reflect.Name := "Name"; reflect.Tag := [("json", "name"); ("pgx", "user_name")] |},
    {| Kind := reflect.String; String_ := "Ann"; Int_ := 0; Float_ := tt |});
   ({| reflect.Name := "Email"; reflect.Tag := [("pgx", "user_email")] |},
    {| Kind := reflect.String; String_ := "ann@example.com"; Int_ := 0; Float_ := tt |});
   ({| reflect.Name := "UserAge"; reflect.Tag := [("json", "age")] |},
    {| Kind := reflect.Int; String_ := ""; Int_ := 40; Float_ := tt |});
   ({| reflect.Name := "Score"; reflect.Tag := [] |},
    {| Kind := reflect.Float64; String_ := ""; Int_ := 0; Float_ := tt |})].

Definition flagged_user : StructData unit :=
  user_1 ++
  [({| reflect.Name := "Active"; reflect.Tag := [] |},
    {| Kind := reflect.Bool; String_ := ""; Int_ := 0; Float_ := tt |})].

Definition FooNested : list member := [Field "FooNested" None true].

Definition BarNested : list member := [Field "BarNested" None true].

Definition doScan (r : row) (d : destination) : scanned :=
  ScanRow NewRowScanner r d.

Definition zero_struct (ms : list member) : destination :=
  StructDst ms (map zero ms).

Definition row_of (cs : list (string * string)) : row :=
  {| cells := map (fun c => (fst c, Text (snd c))) cs; fault := None |}.

Definition fields_of (d : destination) : list value :=
  match d with
  | StructDst _ fields => fields
  | _ => []
  end.

Definition by_ptr : list member :=
  [Embedded "FooNested" None true true FooNested;
   Field "Foo" None true; Field "Bar" None true].

(** What [dbscan.ScanOne] answers on a row source without rows, and the
    check for it, in an instance used to exercise [ScanOne]. *)
Definition no_row_found : errors.error :=
  errors.fundamental "scany: no row was found".

Definition ScanOne_no_rows (dst : unit) (_ : RowsAdapter) : unit * errors.goerror :=
  (dst, Some no_row_found).

Definition is_no_row_found (err : errors.goerror) : bool :=
  errors.Is err (Some no_row_found).

Definition empty_rows : pgx.Rows :=
  {| pgx.FieldDescriptions := []; pgx.closed := false |}.

(** A hook that a test installs after the first scan. *)
Definition mock_start : start_hook := fun _ => inl (InvalidDestination "mock").

Definition first_row : row := row_of [("foo", "foo val")].
Definition second_row : row := row_of [("foo", "foo val 2")].
Definition foo_dst : destination := zero_struct [Field "Foo" None true].

End samples.

(* ===================================================================== *)
(** * Theorems *)
(* ===================================================================== *)

Example toSnakeCase_FooColumn : toSnakeCase "FooColumn" = "foo_column".
Proof. reflexivity. Qed.

Example toSnakeCase_HTTPServer : toSnakeCase "HTTPServerID2Go" = "http_server_id2_go".
Proof. reflexivity. Qed.

Example toSnakeCase_under : toSnakeCase "Foo_Bar" = "foo__bar".
Proof. reflexivity. Qed.

Example toSnakeCase_blocked : toSnakeCase "XAbCdEfG1H" = "x_ab_cd_ef_g1_h".
Proof. reflexivity. Qed.

(* --------------------------------------------------------------------- *)
(** ** The matcher: matches are prefixes, and the fuel is enough *)
(* --------------------------------------------------------------------- *)

Section Matcher.

Lemma splits_shorter s m : splits s m -> length (rest m) < length s.
Proof.
  intros [<- Hne]. rewrite length_app.
  destruct (text m); [congruence|]. simpl. lia.
Qed.

Lemma one_byte_splits ok s m : In m (one_byte ok s) -> splits s m.
Proof.
  destruct s as [|c s']; cbn; [tauto|].
  destruct (ok c); cbn; [|tauto]. intros [<-|[]]. now split.
Qed.

Lemma then_splits s m1 m2 :
  splits s m1 -> splits (rest m1) m2 -> splits s (then_ m1 m2).
Proof.
  intros [H1 Hne] [H2 _]. split; cbn.
  - now rewrite <- app_assoc, H2.
  - destruct (text m1); [congruence|discriminate].
Qed.

Lemma iterate_splits step :
  (forall s m, In m (step s) -> splits s m) ->
  forall fuel s m, In m (iterate step fuel s) -> splits s m.
Proof.
  intros Hstep. induction fuel as [|fuel IH]; intros s m; cbn; [tauto|].
  rewrite in_flat_map. intros (m1 & H1 & Hm).
  apply in_app_iff in Hm as [Hm|[<-|[]]]; [|now apply Hstep].
  apply in_map_iff in Hm as (m2 & <- & H2).
  apply then_splits; [now apply Hstep|now apply IH].
Qed.

Lemma exec_splits r : forall s m, In m (exec r s) -> splits s m.
Proof.
  induction r as [|ranges|r1 IH1 r2 IH2|r1 IH1|n r1 IH1]; intros s m; cbn [exec].
  - apply one_byte_splits.
  - apply one_byte_splits.
  - rewrite in_flat_map. intros (m1 & H1 & Hm).
    apply in_map_iff in Hm as (m2 & <- & H2).
    apply then_splits; [now apply IH1|now apply IH2].
  - now apply iterate_splits.
  - rewrite in_map_iff. intros (m1 & <- & H1). exact (IH1 _ _ H1).
Qed.

Lemma flat_map_ext_in {A B} (f g : A -> list B) (l : list A) :
  (forall a, In a l -> f a = g a) -> flat_map f l = flat_map g l.
Proof.
  induction l as [|a l IH]; intros H; [reflexivity|]. cbn.
  rewrite (H a (or_introl eq_refl)), IH; [reflexivity|].
  intros b Hb. apply H. now right.
Qed.

(** More rounds than the text has bytes change nothing: the rounds that
    [exec] grants to [+] are enough. *)
Lemma iterate_fuel step :
  (forall s m, In m (step s) -> splits s m) ->
  forall fuel1 fuel2 s,
    length s < fuel1 -> length s < fuel2 ->
    iterate step fuel1 s = iterate step fuel2 s.
Proof.
  intros Hstep. induction fuel1 as [|fuel1 IH]; intros fuel2 s H1 H2; [lia|].
  destruct fuel2 as [|fuel2]; [lia|]. cbn [iterate].
  apply flat_map_ext_in. intros m1 Hm1.
  pose proof (splits_shorter _ _ (Hstep _ _ Hm1)).
  rewrite (IH fuel2) by lia. reflexivity.
Qed.

(** Likewise for the replacement loop of any pattern:
    [ReplaceAllString] runs it to its end. *)
Lemma replaceAll_fuel re template :
  forall fuel1 fuel2 src,
    length src < fuel1 -> length src < fuel2 ->
    replaceAll fuel1 re template src = replaceAll fuel2 re template src.
Proof.
  induction fuel1 as [|fuel1 IH]; intros fuel2 src H1 H2; [lia|].
  destruct fuel2 as [|fuel2]; [lia|]. cbn [replaceAll].
  destruct (exec re src) as [|m ms] eqn:Hexec.
  - destruct src as [|c src']; [reflexivity|].
    cbn in H1, H2. rewrite (IH fuel2) by lia. reflexivity.
  - assert (Hm : In m (exec re src)) by (rewrite Hexec; now left).
    pose proof (splits_shorter _ _ (exec_splits _ _ _ Hm)).
    rewrite (IH fuel2) by lia. reflexivity.
Qed.

End Matcher.

(* --------------------------------------------------------------------- *)
(** ** The name normalizer *)
(* --------------------------------------------------------------------- *)

Section SnakeCase.

Local Abbreviation lower_class := (CharClass [("a", "z")]%char).

Lemma head_map {A B} (f : A -> B) (l : list A) :
  head (map f l) = option_map f (head l).
Proof. destruct l; reflexivity. Qed.

Lemma head_app_last {A} (l : list A) (x : A) :
  head (l ++ [x]) = match head l with Some y => Some y | None => Some x end.
Proof. destruct l; reflexivity. Qed.

Lemma match_head {A B} (l : list A) (f : A -> B) (b : B) :
  match l with x :: _ => f x | [] => b end
  = match head l with Some x => f x | None => b end.
Proof. destruct l; reflexivity. Qed.

Lemma lower_run_after s : lower_run s ++ after_lower_run s = s.
Proof.
  induction s as [|l r IH]; simpl; [reflexivity|].
  destruct (isLower l); simpl; [now rewrite IH | reflexivity].
Qed.

Lemma length_after_lower_run s : length (after_lower_run s) <= length s.
Proof.
  induction s as [|l r IH]; simpl; [lia|].
  destruct (isLower l); simpl; lia.
Qed.

(** The greedy [[a-z]+] takes the whole lowercase run. *)
Lemma iterate_lower fuel s :
  length s < fuel ->
  head (iterate (exec lower_class) fuel s)
  = match s with
    | l :: r =>
        if isLower l
        then Some (Submatch (l :: lower_run r) (after_lower_run r) [])
        else None
    | [] => None
    end.
Proof.
  revert s; induction fuel as [|fuel IH]; intros s Hlen; [lia|].
  destruct s as [|l r]; [reflexivity|].
  cbn [iterate]. change (exec lower_class (l :: r)) with (one_byte isLower (l :: r)).
  cbn [one_byte]. destruct (isLower l) eqn:Hl; [|reflexivity].
  cbn [flat_map rest]. rewrite app_nil_r, head_app_last, head_map.
  simpl in Hlen. rewrite IH by lia.
  destruct r as [|l' r']; [reflexivity|].
  cbn [lower_run after_lower_run]. destruct (isLower l'); reflexivity.
Qed.

Lemma exec_matchFirstCap s :
  head (exec matchFirstCap s)
  = match s with
    | c :: u :: l :: r =>
        if negb (Ascii.eqb c newline) && isUpper u && isLower l
        then Some (Submatch (c :: u :: l :: lower_run r) (after_lower_run r)
                            [(1, [c]); (2, u :: l :: lower_run r)])
        else None
    | _ => None
    end.
Proof.
  unfold matchFirstCap.
  destruct s as [|c s1]; [reflexivity|].
  cbn [exec one_byte map flat_map].
  destruct (negb (Ascii.eqb c newline)) eqn:Hc; cbn [map flat_map rest].
  2:{ destruct s1 as [|u [|l r]]; reflexivity. }
  rewrite app_nil_r, !head_map.
  destruct s1 as [|u s2]; [reflexivity|].
  cbn [one_byte]. fold (isUpper u).
  destruct (isUpper u) eqn:Hu; cbn [flat_map rest].
  2:{ destruct s2 as [|l r]; reflexivity. }
  rewrite app_nil_r, head_map, iterate_lower by (simpl; lia).
  destruct s2 as [|l r]; [reflexivity|].
  destruct (isLower l); reflexivity.
Qed.

Lemma exec_matchAllCap s :
  exec matchAllCap s
  = match s with
    | c :: u :: r =>
        if isLowerOrDigit c && isUpper u
        then [Submatch [c; u] r [(1, [c]); (2, [u])]]
        else []
    | _ => []
    end.
Proof.
  unfold matchAllCap.
  destruct s as [|c s1]; [reflexivity|].
  cbn [exec one_byte map flat_map]. fold (isLowerOrDigit c).
  destruct (isLowerOrDigit c); cbn [map flat_map rest].
  2:{ destruct s1 as [|u r]; reflexivity. }
  destruct s1 as [|u r]; [reflexivity|].
  cbn [one_byte]. fold (isUpper u).
  destruct (isUpper u); reflexivity.
Qed.

Lemma firstCapPass_run r :
  firstCapPass true r = lower_run r ++ firstCapPass false (after_lower_run r).
Proof.
  induction r as [|l r IH]; [reflexivity|].
  cbn [firstCapPass lower_run after_lower_run andb].
  destruct (isLower l) eqn:Hl.
  - rewrite IH. reflexivity.
  - cbn [app firstCapPass andb]. reflexivity.
Qed.

(** The first [ReplaceAllString] is the scan [firstCapPass]. *)
Lemma replaceAll_matchFirstCap fuel s :
  length s < fuel ->
  replaceAll fuel matchFirstCap template_1_2 s = firstCapPass false s.
Proof.
  revert s; induction fuel as [|fuel IH]; intros s Hlen; [lia|].
  cbn [replaceAll]. rewrite match_head, exec_matchFirstCap.
  destruct s as [|c s1]; [reflexivity|].
  assert (Hstep : c :: replaceAll fuel matchFirstCap template_1_2 s1
                  = c :: firstCapPass false s1).
  { rewrite IH; [reflexivity|simpl in Hlen; lia]. }
  destruct s1 as [|u [|l r]]; try exact Hstep.
  cbn [firstCapPass andb].
  destruct (negb (Ascii.eqb c newline) && isUpper u && isLower l) eqn:Hm;
    [|exact Hstep].
  cbn [rest]. rewrite firstCapPass_run, IH.
  - unfold expand, template_1_2. simpl. rewrite <- app_assoc. reflexivity.
  - pose proof (length_after_lower_run r). simpl in Hlen. lia.
Qed.

(** The second [ReplaceAllString] is the scan [allCapPass]. *)
Lemma replaceAll_matchAllCap fuel s :
  length s < fuel ->
  replaceAll fuel matchAllCap template_1_2 s = allCapPass s.
Proof.
  revert s; induction fuel as [|fuel IH]; intros s Hlen; [lia|].
  cbn [replaceAll]. rewrite exec_matchAllCap.
  destruct s as [|c s1]; [reflexivity|].
  destruct s1 as [|u r].
  - destruct fuel; reflexivity.
  - cbn [allCapPass]. destruct (isLowerOrDigit c && isUpper u).
    + cbn [rest]. rewrite IH by (simpl in Hlen; lia). reflexivity.
    + rewrite IH by (simpl in *; lia). reflexivity.
Qed.

(** Facts about the byte classes, by arithmetic on the byte's code. *)
Ltac byte_classes :=
  unfold inserts_before, boundary, isAlnum, isLowerOrDigit, isUpper, isLower,
    isDigit, in_class, in_range, underscore, newline in *;
  cbn [existsb fst snd] in *;
  repeat match goal with
         | |- context [nat_of_ascii (Ascii ?a ?b ?c ?d ?e ?f ?g ?h)] =>
             let n := eval vm_compute in (nat_of_ascii (Ascii a b c d e f g h)) in
             change (nat_of_ascii (Ascii a b c d e f g h)) with n
         | H : context [nat_of_ascii (Ascii ?a ?b ?c ?d ?e ?f ?g ?h)] |- _ =>
             let n := eval vm_compute in (nat_of_ascii (Ascii a b c d e f g h)) in
             change (nat_of_ascii (Ascii a b c d e f g h)) with n in H
         end;
  repeat match goal with
         | |- context [Nat.leb ?a ?b] => destruct (Nat.leb_spec a b)
         | H : context [Nat.leb ?a ?b] |- _ => destruct (Nat.leb_spec a b)
         end;
  simpl in *; try reflexivity; try discriminate; try lia.

Lemma isLowerOrDigit_split c : isLowerOrDigit c = isLower c || isDigit c.
Proof. byte_classes. Qed.

Lemma upper_not_lowerdigit c : isUpper c = true -> isLowerOrDigit c = false.
Proof. intros H. byte_classes. Qed.

Lemma lower_not_upper c : isLower c = true -> isUpper c = false.
Proof. intros H. byte_classes. Qed.

Lemma lower_lowerdigit c : isLower c = true -> isLowerOrDigit c = true.
Proof. intros H. byte_classes. Qed.

Lemma allCapPass_step c x Y :
  allCapPass (c :: x :: Y)
  = c :: (if isLowerOrDigit c && isUpper x then [underscore] else [])
      ++ allCapPass (x :: Y).
Proof.
  cbn [allCapPass].
  destruct (isLowerOrDigit c && isUpper x) eqn:H; [|reflexivity].
  apply andb_true_iff in H as [_ Hx].
  apply upper_not_lowerdigit in Hx.
  destruct Y as [|y Y']; [reflexivity|]. rewrite Hx. reflexivity.
Qed.

Lemma firstCapPass_head st c s :
  firstCapPass st (c :: s) = c :: tl (firstCapPass st (c :: s)).
Proof.
  cbn [firstCapPass]. destruct (st && isLower c); [reflexivity|].
  destruct s as [|u [|l r]]; try reflexivity.
  destruct (negb (Ascii.eqb c newline) && isUpper u && isLower l); reflexivity.
Qed.

(** Both passes together insert an underscore exactly where
    [inserts_before] says, whatever the first pass was in the middle of. *)
Lemma passes_underscored n : forall s st,
  length s <= n ->
  allCapPass (firstCapPass st s) = underscored_all s.
Proof.
  induction n as [|n IH]; intros s st Hlen.
  { destruct s; [reflexivity|simpl in Hlen; lia]. }
  destruct s as [|c s1]; [reflexivity|].
  assert (Hcopy : forall st', 
             (forall u l r, s1 = u :: l :: r ->
                isUpper u && (negb (Ascii.eqb c newline) && isLower l)
                = true -> isLowerOrDigit c = true) ->
             allCapPass (c :: firstCapPass st' s1) = underscored_all (c :: s1)).
  { intros st' Hno. destruct s1 as [|x r1]; [reflexivity|].
    rewrite firstCapPass_head, allCapPass_step, <- firstCapPass_head.
    rewrite IH by (simpl in *; lia).
    cbn [underscored_all underscored]. f_equal. f_equal.
    unfold inserts_before.
    destruct (isUpper x) eqn:Hx; [|now rewrite andb_false_r].
    rewrite andb_true_r. cbn [andb].
    destruct (isLowerOrDigit c) eqn:Hc; [reflexivity|]. cbn [orb].
    destruct r1 as [|l r]; [now rewrite andb_false_r|].
    cbn [head from_option].
    destruct (negb (Ascii.eqb c newline) && isLower l) eqn:Hm; [|reflexivity].
    specialize (Hno x l r eq_refl). rewrite Hx, Hm in Hno.
    specialize (Hno eq_refl). discriminate. }
  cbn [firstCapPass].
  destruct (st && isLower c) eqn:Hrun.
  { apply Hcopy. intros u l r _ _.
    apply andb_true_iff in Hrun as [_ Hc]. now apply lower_lowerdigit. }
  destruct s1 as [|u [|l r]].
  - apply Hcopy. intros ? ? ? [=].
  - apply Hcopy. intros ? ? ? [=].
  - destruct (negb (Ascii.eqb c newline) && isUpper u && isLower l) eqn:Hm.
    + apply andb_true_iff in Hm as [Hm Hl].
      apply andb_true_iff in Hm as [Hc Hu].
      assert (Hrun' : firstCapPass true (l :: r) = l :: firstCapPass true r).
      { cbn [firstCapPass andb]. now rewrite Hl. }
      rewrite <- Hrun'.
      rewrite allCapPass_step.
      replace (isLowerOrDigit c && isUpper underscore) with false
        by (clear; byte_classes).
      cbn [app].
      rewrite firstCapPass_head.
      rewrite (allCapPass_step underscore u), (allCapPass_step u l).
      rewrite <- firstCapPass_head.
      replace (isLowerOrDigit underscore) with false by (clear; byte_classes).
      rewrite (upper_not_lowerdigit u Hu). cbn [andb app].
      rewrite IH by (simpl in *; lia).
      cbn [underscored_all underscored head from_option].
      unfold inserts_before at 1 2. cbn [from_option].
      rewrite Hu, Hc, Hl, (lower_not_upper l Hl), orb_true_r. reflexivity.
    + apply Hcopy. intros u' l' r' [= <- <- <-] H.
      rewrite (andb_comm (isUpper u)), <- andb_assoc in H.
      rewrite (andb_comm (isLower l)), andb_assoc in H. congruence.
Qed.

Lemma toSnakeCase_bytes_passes s :
  toSnakeCase_bytes s = strings.ToLower (allCapPass (firstCapPass false s)).
Proof.
  unfold toSnakeCase_bytes, ReplaceAllString.
  rewrite replaceAll_matchFirstCap by apply Nat.lt_succ_diag_r.
  rewrite replaceAll_matchAllCap by apply Nat.lt_succ_diag_r.
  reflexivity.
Qed.

Lemma toSnakeCase_bytes_underscored s :
  toSnakeCase_bytes s = strings.ToLower (underscored_all s).
Proof.
  rewrite toSnakeCase_bytes_passes, (passes_underscored (length s)) by lia.
  reflexivity.
Qed.

Lemma segments_nonempty c s : segments c s <> [].
Proof.
  destruct s as [|d s']; cbn [segments]; [discriminate|].
  destruct (boundary c d (head s')); [discriminate|].
  destruct (segments d s'); discriminate.
Qed.

Lemma join_underscore_cons w ws :
  ws <> [] -> join_underscore (w :: ws) = w ++ underscore :: join_underscore ws.
Proof. destruct ws; [congruence|reflexivity]. Qed.

Lemma join_underscore_push c w ws :
  join_underscore ((c :: w) :: ws) = c :: join_underscore (w :: ws).
Proof. destruct ws; reflexivity. Qed.

Lemma inserts_before_boundary c d next :
  isAlnum c = true -> inserts_before c d next = boundary c d next.
Proof.
  intros Hc. unfold inserts_before, boundary.
  rewrite isLowerOrDigit_split.
  destruct (isUpper d); [|reflexivity]. cbn [andb].
  destruct (isLower c || isDigit c) eqn:Hld; [reflexivity|]. cbn [orb].
  assert (Hu : isUpper c = true).
  { unfold isAlnum in Hc. rewrite <- orb_assoc, Hld, orb_false_r in Hc. exact Hc. }
  rewrite Hu. f_equal.
  clear - Hu. unfold newline.
  destruct (Ascii.eqb_spec c (ascii_of_nat 10)) as [->|]; [discriminate|reflexivity].
Qed.

Lemma toLowerByte_underscore : strings.toLowerByte underscore = underscore.
Proof. reflexivity. Qed.

(** On letters and digits, the underscored lowercase text is the
    lowercase words joined by underscores. *)
Lemma underscored_segments s : forall c,
  forallb isAlnum (c :: s) = true ->
  strings.ToLower (underscored c s)
  = join_underscore (map strings.ToLower (segments c s)).
Proof.
  induction s as [|d s' IH]; intros c Hal; [reflexivity|].
  cbn [forallb] in Hal. apply andb_true_iff in Hal as [Hc Hal].
  cbn [underscored segments].
  rewrite (inserts_before_boundary c d _ Hc).
  unfold strings.ToLower in *. cbn [map]. rewrite map_app, (IH d Hal).
  destruct (boundary c d (head s')).
  - cbn [map]. rewrite join_underscore_cons.
    + reflexivity.
    + intros H. apply map_eq_nil in H. now apply segments_nonempty in H.
  - pose proof (segments_nonempty d s') as Hne.
    destruct (segments d s') as [|w ws]; [congruence|].
    cbn [map app]. now rewrite join_underscore_push.
Qed.

Lemma concat_segments s : forall c, concat (segments c s) = c :: s.
Proof.
  induction s as [|d s' IH]; intros c; [reflexivity|].
  cbn [segments]. specialize (IH d).
  destruct (boundary c d (head s')).
  - cbn [concat app]. now rewrite IH.
  - destruct (segments d s') as [|w ws]; [discriminate|].
    cbn [concat] in *. cbn [app]. now rewrite IH.
Qed.

Lemma string_of_list_ascii_app (w t : bytes) :
  string_of_list_ascii (w ++ t)
  = (string_of_list_ascii w ++ string_of_list_ascii t)%string.
Proof. induction w as [|a w IH]; [reflexivity|]. cbn. now rewrite IH. Qed.

Lemma Join_bytes ws :
  strings.Join (map string_of_list_ascii ws) "_"
  = string_of_list_ascii (join_underscore ws).
Proof.
  induction ws as [|w ws IH]; [reflexivity|].
  destruct ws as [|w' ws']; [reflexivity|].
  change (strings.Join (map string_of_list_ascii (w :: w' :: ws')) "_")
    with (string_of_list_ascii w
            ++ "_" ++ strings.Join (map string_of_list_ascii (w' :: ws')) "_")%string.
  rewrite IH.
  change (join_underscore (w :: w' :: ws'))
    with (w ++ underscore :: join_underscore (w' :: ws')).
  now rewrite string_of_list_ascii_app.
Qed.

Lemma snake_words_bytes s :
  snake_words s
  = string_of_list_ascii
      (join_underscore
         (map strings.ToLower (words_bytes (list_ascii_of_string s)))).
Proof.
  unfold snake_words, words. rewrite map_map, <- Join_bytes, map_map.
  f_equal. apply map_ext. intros w. unfold lowercase.
  now rewrite list_ascii_of_string_of_list_ascii.
Qed.

Lemma toLowerByte_normalized c :
  isLower c || isDigit c || Ascii.eqb c underscore = true ->
  strings.toLowerByte c = c /\ isUpper c = false.
Proof.
  intros H. assert (Hu : isUpper c = false).
  { destruct (Ascii.eqb c underscore) eqn:E.
    - apply Ascii.eqb_eq in E. subst c. reflexivity.
    - rewrite orb_false_r in H. clear - H. byte_classes. }
  unfold strings.toLowerByte. now rewrite Hu.
Qed.

Lemma underscored_normalized s : forall c,
  forallb (fun c => isLower c || isDigit c || Ascii.eqb c underscore) (c :: s)
  = true ->
  strings.ToLower (underscored c s) = c :: s.
Proof.
  induction s as [|d s' IH]; intros c H.
  - cbn in *. rewrite andb_true_r in H.
    now destruct (toLowerByte_normalized c H) as [-> _].
  - cbn [forallb] in H. apply andb_true_iff in H as [Hc Hs].
    pose proof Hs as Hd. cbn [forallb] in Hd. apply andb_true_iff in Hd as [Hd _].
    destruct (toLowerByte_normalized c Hc) as [Hlc _].
    destruct (toLowerByte_normalized d Hd) as [_ Hud].
    cbn [underscored]. unfold inserts_before. rewrite Hud. cbn [andb app].
    unfold strings.ToLower in *. cbn [map]. now rewrite Hlc, (IH d Hs).
Qed.

End SnakeCase.

(** C1.  For every identifier made of capitalized word segments (letters
    and digits), [toSnakeCase] returns its words in lowercase joined by
    underscores, where a word boundary lies before a capital that follows
    a lowercase letter or a digit and before the capital that starts a
    lowercase run after an uppercase run; the words are a division of the
    identifier itself.  In particular ["FooColumn"] gives ["foo_column"]
    and ["Bar"] gives ["bar"]. *)
Theorem toSnakeCase_words :
  (forall s : string,
      identifier s ->
      toSnakeCase s = snake_words s /\ String.concat "" (words s) = s) /\
  toSnakeCase "FooColumn" = "foo_column" /\
  toSnakeCase "Bar" = "bar".
Proof.
  split; [|split; reflexivity].
  intros s Hid. unfold identifier in Hid. split.
  - rewrite snake_words_bytes. unfold toSnakeCase. f_equal.
    rewrite toSnakeCase_bytes_underscored.
    destruct (list_ascii_of_string s) as [|c bs]; [reflexivity|].
    now apply underscored_segments.
  - unfold words.
    rewrite <- (string_of_list_ascii_of_string s) at 2.
    destruct (list_ascii_of_string s) as [|c bs]; [reflexivity|].
    cbn [words_bytes]. rewrite <- (concat_segments bs c).
    generalize (segments c bs) as ws. clear.
    induction ws as [|w ws IH]; [reflexivity|].
    destruct ws as [|w' ws'].
    + cbn. now rewrite app_nil_r.
    + change (String.concat "" (map string_of_list_ascii (w :: w' :: ws')))
        with (string_of_list_ascii w ++ "" ++
              String.concat "" (map string_of_list_ascii (w' :: ws')))%string.
      rewrite IH. cbn [concat String.append].
      now rewrite !string_of_list_ascii_app.
Qed.

Lemma toSnakeCase_words_witness :
  identifier "HTTPServerID2Go" /\
  toSnakeCase "HTTPServerID2Go" = "http_server_id2_go" /\
  words "HTTPServerID2Go" = ["HTTP"; "Server"; "ID2"; "Go"].
Proof.
  split; [reflexivity|]. split; [|reflexivity].
  rewrite (proj1 (proj1 toSnakeCase_words "HTTPServerID2Go" eq_refl)).
  reflexivity.
Defined.

(** C9.  On already-normalized input (lowercase letters, digits and
    underscores only) [toSnakeCase] returns its argument unchanged, hence
    applying it twice is the same as applying it once. *)
Theorem toSnakeCase_normalized (s : string) :
  normalized s ->
  toSnakeCase s = s /\ toSnakeCase (toSnakeCase s) = toSnakeCase s.
Proof.
  intros Hn.
  assert (H : toSnakeCase s = s).
  { unfold toSnakeCase. rewrite toSnakeCase_bytes_underscored.
    unfold normalized in Hn.
    rewrite <- (string_of_list_ascii_of_string s) at 2. f_equal.
    destruct (list_ascii_of_string s) as [|c bs]; [reflexivity|].
    now apply underscored_normalized. }
  split; [exact H|]. now rewrite !H.
Qed.

Lemma toSnakeCase_normalized_witness :
  normalized "foo_column2" /\
  toSnakeCase "foo_column2" = "foo_column2" /\
  toSnakeCase (toSnakeCase "foo_column2") = toSnakeCase "foo_column2".
Proof.
  split; [reflexivity|].
  exact (toSnakeCase_normalized "foo_column2" eq_refl).
Defined.


(* --------------------------------------------------------------------- *)
(** ** [Insert] *)
(* --------------------------------------------------------------------- *)

Section InsertFacts.

Context {float64 : Type} (Sprintf_f : float64 -> string).

Lemma Insert_loop_supported (data : StructData float64) :
  forall dbCols dbVals,
    Forall (fun fv => supported (Kind (snd fv)) = true) data ->
    Insert_loop Sprintf_f data dbCols dbVals
    = inr (dbCols ++ map (fun fv => column_of (fst fv)) data,
           dbVals ++ map (fun fv => text_of Sprintf_f (snd fv)) data).
Proof.
  induction data as [|[field value] data IH]; intros dbCols dbVals Hall.
  - cbn. now rewrite !app_nil_r.
  - inversion Hall as [|? ? Hk Hall']; subst. cbn [snd] in Hk.
    cbn [Insert_loop map fst snd]. unfold column_of, text_of.
    destruct (reflect.Lookup (reflect.Tag field) "pgx");
      destruct (Kind value); try discriminate Hk;
      rewrite (IH _ _ Hall'), <- !app_assoc; reflexivity.
Qed.

Lemma Insert_loop_unsupported (data : StructData float64) :
  forall dbCols dbVals,
    Exists (fun fv => supported (Kind (snd fv)) = false) data ->
    exists field value,
      In (field, value) data /\
      supported (Kind value) = false /\
      Insert_loop Sprintf_f data dbCols dbVals
      = inl (Some (unsupported_error (Kind value))).
Proof.
  induction data as [|[field value] data IH]; intros dbCols dbVals Hex.
  - inversion Hex.
  - destruct (supported (Kind value)) eqn:Hk.
    + assert (Hex' : Exists (fun fv => supported (Kind (snd fv)) = false) data).
      { inversion Hex as [? ? H|]; subst; [|assumption].
        cbn [snd] in H. congruence. }
      cbn [Insert_loop].
      set (cols := match reflect.Lookup (reflect.Tag field) "pgx" with
                   | Some val => dbCols ++ [val]
                   | None => dbCols ++ [toSnakeCase (reflect.Name field)]
                   end).
      assert (Hgo : forall v,
                 exists f' v',
                   In (f', v') ((field, value) :: data) /\
                   supported (Kind v') = false /\
                   Insert_loop Sprintf_f data cols (dbVals ++ [v])
                   = inl (Some (unsupported_error (Kind v')))).
      { intros v. destruct (IH cols (dbVals ++ [v]) Hex') as (f' & v' & Hin & Hs & Heq).
        exists f', v'. split; [now right|]. now split. }
      destruct (Kind value); try discriminate Hk; apply Hgo.
    + exists field, value. split; [now left|]. split; [assumption|].
      cbn [Insert_loop]. destruct (Kind value); try discriminate Hk; reflexivity.
Qed.

(** [Lookup] answers with what the tag holds. *)
Lemma Lookup_tag_has (tag : reflect.StructTag) (key val : string) :
  tag_has key tag val -> reflect.Lookup tag key = Some val.
Proof.
  induction 1 as [val tag|k v val tag Hne _ IH]; cbn [reflect.Lookup].
  - now rewrite String.eqb_refl.
  - destruct (String.eqb_spec k key) as [Heq|_]; [contradiction|exact IH].
Qed.

Lemma Lookup_tag_lacks (tag : reflect.StructTag) (key : string) :
  tag_lacks key tag -> reflect.Lookup tag key = None.
Proof.
  unfold tag_lacks. induction tag as [|[k v] tag IH]; intros Hno; [reflexivity|].
  cbn [reflect.Lookup]. destruct (String.eqb_spec k key) as [->|_].
  - destruct (Hno v). now left.
  - apply IH. intros val Hin. apply (Hno val). now right.
Qed.

End InsertFacts.

(** C8.  For a struct whose fields all have supported kinds (the names of
    the fields without a [pgx] tag being ASCII text, where the embedding
    of [toSnakeCase] is that of the code), [Insert] sends exactly one
    statement, the concatenation
    ["INSERT INTO " + table + " (" + columns + ") VALUES (" + values + ") "
    + additionalQuery], where columns and values are joined by [", "] and
    follow the fields in declaration order; the column of a field is the
    value its tag holds under [pgx] when there is one, whatever else the
    tag holds, and [toSnakeCase] of the field name when the tag has no
    pair under [pgx]; a string field is rendered between single quotes,
    the integers in base 10 and the floats by [%f]. *)
Theorem Insert_statement (float64 : Type) (Sprintf_f : float64 -> string)
        (db : Querier) (data : StructData float64)
        (table additionalQuery : string) :
  Forall (fun fv => supported (Kind (snd fv)) = true) data ->
  Forall (fun fv => tag_lacks "pgx" (reflect.Tag (fst fv)) ->
                    ascii_text (reflect.Name (fst fv))) data ->
  exists columns values : list string,
    sent (Insert Sprintf_f db data table additionalQuery)
    = [("INSERT INTO " ++ table ++ " (" ++ strings.Join columns ", "
        ++ ") VALUES (" ++ strings.Join values ", " ++ ") "
        ++ additionalQuery)%string] /\
    Forall2 (fun fv column =>
               (forall val, tag_has "pgx" (reflect.Tag (fst fv)) val ->
                            column = val) /\
               (tag_lacks "pgx" (reflect.Tag (fst fv)) ->
                column = toSnakeCase (reflect.Name (fst fv))))
            data columns /\
    Forall2 (fun fv text =>
               (Kind (snd fv) = reflect.String ->
                text = ("'" ++ String_ (snd fv) ++ "'")%string) /\
               (In (Kind (snd fv))
                   [reflect.Int; reflect.Int8; reflect.Int32; reflect.Int64] ->
                text = strconv.FormatInt10 (Int_ (snd fv))) /\
               (In (Kind (snd fv)) [reflect.Float32; reflect.Float64] ->
                text = Sprintf_f (Float_ (snd fv))))
            data values.
Proof.
  intros Hall _.
  exists (map (fun fv => column_of (fst fv)) data),
         (map (fun fv => text_of Sprintf_f (snd fv)) data).
  split; [|split].
  - unfold Insert. rewrite (Insert_loop_supported Sprintf_f data [] [] Hall).
    reflexivity.
  - clear Hall. induction data as [|[field value] data IH]; constructor; [|exact IH].
    cbn [fst]. unfold column_of. split.
    + intros val Hval. now rewrite (Lookup_tag_has _ _ _ Hval).
    + intros Hnone. now rewrite (Lookup_tag_lacks _ _ Hnone).
  - clear Hall. induction data as [|[field value] data IH]; constructor; [|exact IH].
    cbn [snd]. unfold text_of. split; [|split].
    + intros ->. reflexivity.
    + cbn. intros [<-|[<-|[<-|[<-|[]]]]]; reflexivity.
    + cbn. intros [<-|[<-|[]]]; reflexivity.
Qed.

(** C10.  Whenever the struct has a field whose kind is not one of String,
    Int, Int8, Int32, Int64, Float32, Float64, [Insert] sends no statement
    and returns the ["this type not yet supported"] error about the kind
    of such a field; Int16, the unsigned integers and Bool are among the
    kinds rejected. *)
Theorem Insert_unsupported (float64 : Type) (Sprintf_f : float64 -> string)
        (db : Querier) (data : StructData float64)
        (table additionalQuery : string) :
  Exists (fun fv => supported (Kind (snd fv)) = false) data ->
  (exists field value,
      In (field, value) data /\
      supported (Kind value) = false /\
      Insert Sprintf_f db data table additionalQuery
      = {| sent := [];
           returned :=
             Some (errors.withStack
                     (errors.withMessage
                        (errors.fundamental
                           ("type: " ++ reflect.Kind_String (Kind value)
                            ++ " unsupported")%string)
                        "scany: this type not yet supported")) |}) /\
  Forall (fun k => supported k = false)
         [reflect.Int16; reflect.Uint; reflect.Uint8; reflect.Uint16;
          reflect.Uint32; reflect.Uint64; reflect.Bool] /\
  (forall k, supported k = true <->
             In k [reflect.String; reflect.Int; reflect.Int8; reflect.Int32;
                   reflect.Int64; reflect.Float32; reflect.Float64]).
Proof.
  intros Hex. split; [|split].
  - destruct (Insert_loop_unsupported Sprintf_f data [] [] Hex)
      as (field & value & Hin & Hk & Heq).
    exists field, value. split; [assumption|]. split; [assumption|].
    unfold Insert. now rewrite Heq.
  - repeat constructor.
  - intros k. split.
    + destruct k; cbn; intros H; try discriminate H; tauto.
    + cbn. intros H. repeat (destruct H as [<-|H]; [reflexivity|]). destruct H.
Qed.

Lemma Insert_statement_witness :
  sent (Insert (fun _ : unit => "0.000000") (fun _ => None) samples.tagged_user
               "my_user_table" "RETURNING id")
  = ["INSERT INTO my_user_table (id, user_name, user_email, user_age, score) VALUES ('user_1', 'Ann', 'ann@example.com', 40, 0.000000) RETURNING id"].
Proof.
  destruct (Insert_statement unit (fun _ => "0.000000") (fun _ => None)
              samples.tagged_user "my_user_table" "RETURNING id")
    as (columns & values & Hsent & Hc & Hv).
  - repeat constructor.
  - repeat constructor; intros _; vm_compute; reflexivity.
  - rewrite Hsent. clear Hsent. unfold samples.tagged_user in Hc, Hv.
    assert (Hjson : "json" <> "pgx") by discriminate.
    assert (Hlacks : forall val, tag_lacks "pgx" [("json", val)]).
    { intros val v [H|[]]. discriminate H. }
    assert (Hempty : tag_lacks "pgx" []) by (intros v []).
    inversion Hc as [|? c1 ? l1 [T1 _] Hc1]; subst; clear Hc.
    inversion Hc1 as [|? c2 ? l2 [T2 _] Hc2]; subst; clear Hc1.
    inversion Hc2 as [|? c3 ? l3 [T3 _] Hc3]; subst; clear Hc2.
    inversion Hc3 as [|? c4 ? l4 [_ U4] Hc4]; subst; clear Hc3.
    inversion Hc4 as [|? c5 ? l5 [_ U5] Hc5]; subst; clear Hc4.
    inversion Hc5; subst; clear Hc5.
    cbn [fst reflect.Tag reflect.Name] in T1, T2, T3, U4, U5.
    rewrite (T1 _ (tag_here _ _ _)).
    rewrite (T2 _ (tag_later _ _ _ _ _ Hjson (tag_here _ _ _))).
    rewrite (T3 _ (tag_here _ _ _)).
    rewrite (U4 (Hlacks _)), (U5 Hempty).
    inversion Hv as [|? t1 ? m1 [S1 _] Hv1]; subst; clear Hv.
    inversion Hv1 as [|? t2 ? m2 [S2 _] Hv2]; subst; clear Hv1.
    inversion Hv2 as [|? t3 ? m3 [S3 _] Hv3]; subst; clear Hv2.
    inversion Hv3 as [|? t4 ? m4 [_ [I4 _]] Hv4]; subst; clear Hv3.
    inversion Hv4 as [|? t5 ? m5 [_ [_ F5]] Hv5]; subst; clear Hv4.
    inversion Hv5; subst; clear Hv5.
    cbn [snd Kind String_ Int_ Float_] in S1, S2, S3, I4, F5.
    rewrite (S1 eq_refl), (S2 eq_refl), (S3 eq_refl).
    rewrite (I4 (or_introl eq_refl)), (F5 (or_intror (or_introl eq_refl))).
    reflexivity.
Defined.

Lemma Insert_unsupported_witness :
  exists field value,
    In (field, value) samples.flagged_user /\
    supported (Kind value) = false /\
    Insert (fun _ : unit => "0.000000") (fun _ => None) samples.flagged_user
           "my_user_table" ""
    = {| sent := [];
         returned :=
           Some (errors.withStack
                   (errors.withMessage
                      (errors.fundamental
                         ("type: " ++ reflect.Kind_String (Kind value)
                          ++ " unsupported")%string)
                      "scany: this type not yet supported")) |}.
Proof.
  refine (proj1 (Insert_unsupported unit _ _ samples.flagged_user _ _ _)).
  unfold samples.flagged_user, samples.user_1. cbn [app].
  apply Exists_cons_tl, Exists_cons_tl, Exists_cons_hd. reflexivity.
Defined.

Example Insert_tagged_user :
  Insert (fun _ : unit => "0.000000") (fun _ => None) samples.tagged_user
         "my_user_table" "RETURNING id"
  = {| sent := ["INSERT INTO my_user_table (id, user_name, user_email, user_age, score) VALUES ('user_1', 'Ann', 'ann@example.com', 40, 0.000000) RETURNING id"];
       returned := None |}.
Proof. reflexivity. Qed.

Example Insert_flagged_user :
  Insert (fun _ : unit => "0.000000") (fun _ => None) samples.flagged_user
         "my_user_table" ""
  = {| sent := [];
       returned :=
         Some (errors.withStack
                 (errors.withMessage
                    (errors.fundamental "type: bool unsupported")
                    "scany: this type not yet supported")) |}.
Proof. reflexivity. Qed.

(* --------------------------------------------------------------------- *)
(** ** [RowsAdapter.Columns] *)
(* --------------------------------------------------------------------- *)

Lemma Columns_loop_spec (fds : list pgx.FieldDescription) :
  forall (i : nat) (columns : list string),
    i + length fds = length columns ->
    Columns_loop i fds columns
    = take i columns
      ++ map (fun fd => string_of_list_byte (pgx.Name fd)) fds.
Proof.
  induction fds as [|fd fds IH]; intros i columns Hlen.
  - cbn in *. rewrite app_nil_r, Nat.add_0_r in *.
    now rewrite Hlen, firstn_all.
  - cbn [Columns_loop map length] in *.
    rewrite IH by (rewrite length_insert; lia).
    assert (Hi : i < length columns) by lia.
    rewrite (take_S_r _ _ (string_of_list_byte (pgx.Name fd)))
      by (now apply list_lookup_insert_eq).
    rewrite take_insert_ge by lia.
    now rewrite <- app_assoc.
Qed.

(** C7.  For every wrapped [pgx.Rows], [Columns] returns the names of its
    field descriptions, in the order of the field descriptions, and a nil
    error: the adapter has no failing path. *)
Theorem Columns_names (rows : pgx.Rows) :
  Columns (NewRowsAdapter rows)
  = (map (fun fd => string_of_list_byte (pgx.Name fd))
         (pgx.FieldDescriptions rows),
     None).
Proof.
  unfold Columns, NewRowsAdapter. cbn [Rows].
  rewrite Columns_loop_spec by (now rewrite length_replicate).
  reflexivity.
Qed.

(* --------------------------------------------------------------------- *)
(** ** [ScanOne] and [NotFound] *)
(* --------------------------------------------------------------------- *)

Lemma is_Wraps (e t : errors.error) :
  errors.is_ e t = true <-> errors.Wraps e t.
Proof.
  split.
  - induction e as [id s|msg|cause IH msg|err IH]; cbn [errors.is_];
      case_bool_decide as Heq; try (subst; intros; constructor);
      intros H; try discriminate H.
    + apply (errors.Wraps_unwrap _ cause); [reflexivity|auto].
    + apply (errors.Wraps_unwrap _ err); [reflexivity|auto].
  - induction 1 as [e|e e' t Hu _ IH].
    + destruct e; cbn [errors.is_]; now rewrite bool_decide_eq_true_2.
    + destruct e; try discriminate Hu; injection Hu as ->;
        cbn [errors.is_]; case_bool_decide; auto.
Qed.

(** When [dbscan.NotFound] does not hold, the underlying error is handed
    on as it is; [ScanOne] yields [pgx.ErrNoRows] otherwise only if that
    is what [dbscan.ScanOne] itself returned. *)
Lemma ScanOne_ErrNoRows_inv (Dst : Type)
      (dbscan_ScanOne : Dst -> RowsAdapter -> Dst * errors.goerror)
      (dbscan_NotFound : errors.goerror -> bool)
      (dst : Dst) (rows : pgx.Rows) :
  snd (ScanOne dbscan_ScanOne dbscan_NotFound dst rows)
  = Some (errors.withStack pgx.ErrNoRows) ->
  dbscan_NotFound (snd (dbscan_ScanOne dst (NewRowsAdapter rows))) = true \/
  snd (dbscan_ScanOne dst (NewRowsAdapter rows)) = Some pgx.ErrNoRows.
Proof.
  unfold ScanOne.
  destruct (dbscan_ScanOne dst (NewRowsAdapter rows)) as [dst' err].
  cbn [snd]. destruct (dbscan_NotFound err); [now left|].
  destruct err as [e|]; cbn; [|discriminate].
  intros [= ->]. now right.
Qed.

(** C6.  [ScanOne] returns [pgx.ErrNoRows] (with its stack annotation) when
    the result of the underlying [dbscan.ScanOne] satisfies
    [dbscan.NotFound]; for every other result it returns that very error
    with a stack annotation, and nil for nil.  [NotFound err] holds exactly
    when [err] wraps [pgx.ErrNoRows]. *)
Theorem ScanOne_NotFound (Dst : Type)
        (dbscan_ScanOne : Dst -> RowsAdapter -> Dst * errors.goerror)
        (dbscan_NotFound : errors.goerror -> bool)
        (dst : Dst) (rows : pgx.Rows) :
  let underlying := dbscan_ScanOne dst (NewRowsAdapter rows) in
  let result := ScanOne dbscan_ScanOne dbscan_NotFound dst rows in
  (dbscan_NotFound (snd underlying) = true ->
   snd result = Some (errors.withStack pgx.ErrNoRows) /\
   NotFound (snd result) = true) /\
  (dbscan_NotFound (snd underlying) = false ->
   snd result = errors.WithStack (snd underlying) /\
   (snd underlying = None -> snd result = None) /\
   (forall e, snd underlying = Some e ->
              snd result = Some (errors.withStack e))) /\
  fst result = fst underlying /\
  (forall err : errors.goerror,
      NotFound err = true <->
      exists e, err = Some e /\ errors.Wraps e pgx.ErrNoRows).
Proof.
  cbn zeta. unfold ScanOne.
  destruct (dbscan_ScanOne dst (NewRowsAdapter rows)) as [dst' err].
  cbn [fst snd]. repeat split.
  - now rewrite H.
  - now rewrite H.
  - now rewrite H.
  - rewrite H. intros ->. reflexivity.
  - rewrite H. intros e ->. reflexivity.
  - now destruct (dbscan_NotFound err).
  - unfold NotFound, errors.Is. destruct err0 as [e|]; [|discriminate].
    intros H. exists e. split; [reflexivity|]. now apply is_Wraps.
  - intros (e & -> & Hw). now apply is_Wraps.
Qed.

Lemma ScanOne_NotFound_witness :
  snd (ScanOne samples.ScanOne_no_rows samples.is_no_row_found tt samples.empty_rows)
  = Some (errors.withStack pgx.ErrNoRows) /\
  NotFound (snd (ScanOne samples.ScanOne_no_rows samples.is_no_row_found tt
                         samples.empty_rows)) = true.
Proof.
  exact (proj1 (ScanOne_NotFound unit samples.ScanOne_no_rows
                                 samples.is_no_row_found tt samples.empty_rows)
               eq_refl).
Defined.


(* --------------------------------------------------------------------- *)
(** ** The engine on the cases of its test suite *)
(* --------------------------------------------------------------------- *)

Section TestSuite.
Import dbscan samples.

Example snake_case_mapping :
  let s := doScan (row_of [("foo_column", "foo val"); ("bar", "bar val")])
                  (zero_struct [Field "FooColumn" None true; Field "Bar" None true]) in
  failure s = None /\
  fields_of (dest s) = [Leaf (Text "foo val"); Leaf (Text "bar val")].
Proof. vm_compute. split; reflexivity. Qed.

Example embedded_by_ptr_filled :
  let s := doScan (row_of [("foo", "foo val"); ("bar", "bar val");
                           ("foo_nested", "foo nested val")])
                  (zero_struct by_ptr) in
  failure s = None /\
  fields_of (dest s)
  = [Pointer (Some [Leaf (Text "foo nested val")]);
     Leaf (Text "foo val"); Leaf (Text "bar val")].
Proof. vm_compute. split; reflexivity. Qed.

Example embedded_by_ptr_not_filled :
  let s := doScan (row_of [("foo", "foo val"); ("bar", "bar val")])
                  (zero_struct by_ptr) in
  failure s = None /\
  fields_of (dest s)
  = [Pointer None; Leaf (Text "foo val"); Leaf (Text "bar val")].
Proof. vm_compute. split; reflexivity. Qed.

Example embedded_with_tag :
  let s := doScan (row_of [("foo", "foo val"); ("bar", "bar val");
                           ("nested.foo_nested", "foo nested val")])
                  (zero_struct [Embedded "FooNested" (Some "nested") true false FooNested;
                                Field "Foo" None true; Field "Bar" None true]) in
  failure s = None /\
  fields_of (dest s)
  = [Struct [Leaf (Text "foo nested val")];
     Leaf (Text "foo val"); Leaf (Text "bar val")].
Proof. vm_compute. split; reflexivity. Qed.

Example unexported_field :
  failure (doScan (row_of [("foo", "foo val"); ("bar", "bar val")])
                  (zero_struct [Field "foo" None false; Field "Bar" None true]))
  = Some (UnmappedColumn "foo").
Proof. vm_compute. reflexivity. Qed.

Example duplicated_tag :
  failure (doScan (row_of [("foo_column", "foo val"); ("bar", "bar val")])
                  (zero_struct [Field "Foo" (Some "foo_column") true;
                                Field "Bar" (Some "foo_column") true]))
  = Some (DuplicateColumnMapping "foo_column" [0] [1]).
Proof. vm_compute. reflexivity. Qed.

Example duplicated_column_map :
  failure (doScan (row_of [("foo", "foo val"); ("foo", "bar val")])
                  (MapDst StringKey ∅))
  = Some (DuplicateColumn "foo").
Proof. vm_compute. reflexivity. Qed.

Example scalar_two_columns :
  failure (doScan (row_of [("foo", "foo val"); ("bar", "bar val")])
                  (ScalarDst Null))
  = Some (InvalidScanRowCount 2).
Proof. vm_compute. reflexivity. Qed.

(** [TestRowScannerDoScan_AfterFirstScan_StartNotCalled]: a hook installed
    after the first scan is left alone by the second, which fills the
    destination from its row. *)
Example start_not_called_after_first_scan :
  let s := ScanRow (SetStartFn (scanner (ScanRow NewRowScanner first_row foo_dst))
                               mock_start)
                   second_row foo_dst in
  failure s = None /\
  fields_of (dest s) = [Leaf (Text "foo val 2")] /\
  is_started (scanner s) = true.
Proof. vm_compute. repeat split; reflexivity. Qed.

(** The same hook installed before the first scan is the one that runs,
    and the scanner is started all the same. *)
Example start_called_by_first_scan :
  let s := ScanRow (SetStartFn NewRowScanner mock_start) first_row foo_dst in
  failure s = Some (InvalidDestination "mock") /\
  hook_invoked s = true /\
  is_started (scanner s) = true.
Proof. vm_compute. repeat split; reflexivity. Qed.

End TestSuite.

(* --------------------------------------------------------------------- *)
(** ** The row scanner's state *)
(* --------------------------------------------------------------------- *)

Section ScannerFacts.
Import dbscan.

Lemma ScanRow_state rs r d : state (scanner (ScanRow rs r d)) = Started.
Proof.
  unfold ScanRow.
  destruct (state rs) eqn:Hs; cbn [resolved].
  - destruct (start rs d); [reflexivity|].
    destruct (materialize _ r d); reflexivity.
  - destruct (resolved rs); [exact Hs|].
    destruct (materialize _ r d); exact Hs.
Qed.

Lemma ScanRow_hook_invoked rs r d :
  hook_invoked (ScanRow rs r d)
  = match state rs with NotStarted => true | Started => false end.
Proof.
  unfold ScanRow.
  destruct (state rs); cbn [resolved].
  - destruct (start rs d); [reflexivity|].
    destruct (materialize _ r d); reflexivity.
  - destruct (resolved rs); [reflexivity|].
    destruct (materialize _ r d); reflexivity.
Qed.

Lemma ScanRow_resolved rs r d :
  state rs = Started -> resolved (scanner (ScanRow rs r d)) = resolved rs.
Proof.
  intros Hs. unfold ScanRow. rewrite Hs.
  destruct (resolved rs) eqn:Hr; [exact Hr|].
  destruct (materialize _ r d); exact Hr.
Qed.

(** Once started, a scanner stays started and its hook stays silent,
    whichever hook is installed and whatever the rows do. *)
Lemma run_started calls : forall rs k s,
  state rs = Started ->
  run rs calls !! k = Some s ->
  state (scanner s) = Started /\ hook_invoked s = false /\
  resolved (scanner s) = resolved rs.
Proof.
  induction calls as [|c calls IH]; intros rs k s Hs Hk; [discriminate|].
  destruct c as [r d|h]; cbn [run] in Hk.
  - destruct k as [|k]; cbn in Hk.
    + injection Hk as <-. split; [apply ScanRow_state|]. split.
      * now rewrite ScanRow_hook_invoked, Hs.
      * now apply ScanRow_resolved.
    + destruct (IH _ _ _ (ScanRow_state rs r d) Hk) as (H1 & H2 & H3).
      split; [assumption|]. split; [assumption|].
      rewrite H3. now apply ScanRow_resolved.
  - exact (IH (SetStartFn rs h) k s Hs Hk).
Qed.

(** What a [ScanRow] hands back is what the materializer makes of the
    row with the index the scanner holds after it, or the error held in
    the index's place: the installed hook has no other way into it. *)
Lemma ScanRow_outcome rs r d :
  match resolved (scanner (ScanRow rs r d)) with
  | inl e => failure (ScanRow rs r d) = Some e /\ dest (ScanRow rs r d) = d
  | inr idx =>
      (dest (ScanRow rs r d), failure (ScanRow rs r d)) = materialize idx r d
  end.
Proof.
  unfold ScanRow.
  destruct (state rs); cbn [resolved].
  - destruct (start rs d) as [e|idx] eqn:Hr;
      [cbn [scanner resolved failure dest]; now split|].
    destruct (materialize idx r d) as [d' err] eqn:Hm.
    cbn [scanner resolved failure dest]. now rewrite Hm.
  - destruct (resolved rs) as [e|idx] eqn:Hr.
    + cbn [scanner failure dest]. rewrite Hr. now split.
    + destruct (materialize idx r d) as [d' err] eqn:Hm.
      cbn [scanner failure dest]. rewrite Hr. now rewrite Hm.
Qed.

(** The first [ScanRow] keeps what the hook in place makes of its
    destination. *)
Lemma ScanRow_first rs r d :
  state rs = NotStarted -> resolved (scanner (ScanRow rs r d)) = start rs d.
Proof.
  intros Hs. unfold ScanRow. rewrite Hs. cbn [resolved].
  destruct (start rs d) as [e|idx]; [reflexivity|].
  destruct (materialize idx r d); reflexivity.
Qed.

(** The results of a run answer the [ScanRow]s among the calls, one for
    one. *)
Lemma run_scans calls : forall rs k s,
  run rs calls !! k = Some s ->
  exists r d,
    scans calls !! k = Some (r, d) /\
    match resolved (scanner s) with
    | inl e => failure s = Some e /\ dest s = d
    | inr idx => (dest s, failure s) = materialize idx r d
    end.
Proof.
  induction calls as [|c calls IH]; intros rs k s Hk; [discriminate|].
  destruct c as [r d|h]; cbn [run scans] in Hk |- *.
  - destruct k as [|k]; cbn in Hk |- *.
    + injection Hk as <-. exists r, d. split; [reflexivity|apply ScanRow_outcome].
    + exact (IH _ _ _ Hk).
  - exact (IH _ _ _ Hk).
Qed.

(** From [NotStarted], every result of a run holds what the hook in place
    at the first [ScanRow] made of the destination of that [ScanRow]. *)
Lemma run_first calls : forall rs k s,
  state rs = NotStarted ->
  run rs calls !! k = Some s ->
  exists h0 d0,
    first_scan (start rs) calls = Some (h0, d0) /\
    resolved (scanner s) = h0 d0.
Proof.
  induction calls as [|c calls IH]; intros rs k s Hs Hk; [discriminate|].
  destruct c as [r d|h]; cbn [run first_scan] in Hk |- *.
  - exists (start rs), d. split; [reflexivity|].
    destruct k as [|k]; cbn in Hk.
    + injection Hk as <-. now apply ScanRow_first.
    + destruct (run_started _ _ _ _ (ScanRow_state rs r d) Hk) as (_ & _ & H3).
      rewrite H3. now apply ScanRow_first.
  - exact (IH (SetStartFn rs h) k s Hs Hk).
Qed.

End ScannerFacts.

(** C2.  From [NotStarted], whatever calls follow ([ScanRow]s, on any rows
    and destinations, with any start hooks installed in between), after
    every [ScanRow] the state is [Started], so it never goes back, also
    when the scan returned an error.  The start hook is invoked by the
    first [ScanRow] and by no later one: every [ScanRow] leaves in the
    scanner what the hook in place at the first [ScanRow] made of the
    destination of that first [ScanRow], and hands back what the
    materializer makes of its own row and destination with that index (or
    the error the hook gave in the index's place); so no hook installed
    after the first [ScanRow], and no later destination, has a part in any
    result. *)
Theorem scanner_starts_once (rs : dbscan.RowScanner) (calls : list dbscan.call) :
  dbscan.state rs = dbscan.NotStarted ->
  forall (k : nat) (s : dbscan.scanned),
    dbscan.run rs calls !! k = Some s ->
    dbscan.state (dbscan.scanner s) = dbscan.Started /\
    dbscan.is_started (dbscan.scanner s) = true /\
    (dbscan.hook_invoked s = true <-> k = 0) /\
    (exists (h0 : dbscan.start_hook) (d0 : dbscan.destination),
        dbscan.first_scan (dbscan.start rs) calls = Some (h0, d0) /\
        dbscan.resolved (dbscan.scanner s) = h0 d0 /\
        exists (r : dbscan.row) (d : dbscan.destination),
          dbscan.scans calls !! k = Some (r, d) /\
          match h0 d0 with
          | inl e => dbscan.failure s = Some e /\ dbscan.dest s = d
          | inr idx =>
              (dbscan.dest s, dbscan.failure s) = dbscan.materialize idx r d
          end).
Proof.
  intros Hs k s Hk.
  assert (Hst : dbscan.state (dbscan.scanner s) = dbscan.Started /\
                (dbscan.hook_invoked s = true <-> k = 0)).
  { revert rs k s Hs Hk.
    induction calls as [|c calls IH]; intros rs k s Hs Hk; [discriminate|].
    destruct c as [r d|h]; cbn [dbscan.run] in Hk.
    - destruct k as [|k]; cbn in Hk.
      + injection Hk as <-. split; [apply ScanRow_state|].
        now rewrite ScanRow_hook_invoked, Hs.
      + destruct (run_started _ _ _ _ (ScanRow_state rs r d) Hk) as (H1 & H2 & _).
        split; [assumption|]. rewrite H2. split; [discriminate|lia].
    - exact (IH (dbscan.SetStartFn rs h) k s Hs Hk). }
  destruct Hst as [H1 H2]. split; [assumption|]. split; [|split; [assumption|]].
  - unfold dbscan.is_started. now rewrite H1.
  - destruct (run_first calls rs k s Hs Hk) as (h0 & d0 & Hf & Hr).
    destruct (run_scans calls rs k s Hk) as (r & d & Hsc & Ho).
    exists h0, d0. split; [assumption|]. split; [assumption|].
    exists r, d. split; [assumption|]. now rewrite <- Hr.
Qed.

Lemma scanner_starts_once_witness :
  let s := dbscan.ScanRow
             (dbscan.SetStartFn
                (dbscan.scanner
                   (dbscan.ScanRow dbscan.NewRowScanner samples.first_row samples.foo_dst))
                samples.mock_start)
             samples.second_row samples.foo_dst in
  dbscan.state (dbscan.scanner s) = dbscan.Started /\
  dbscan.is_started (dbscan.scanner s) = true /\
  (dbscan.hook_invoked s = true <-> 1 = 0) /\
  dbscan.resolved (dbscan.scanner s) = dbscan.default_start samples.foo_dst /\
  match dbscan.default_start samples.foo_dst with
  | inl e => dbscan.failure s = Some e /\ dbscan.dest s = samples.foo_dst
  | inr idx =>
      (dbscan.dest s, dbscan.failure s)
      = dbscan.materialize idx samples.second_row samples.foo_dst
  end.
Proof.
  intros s.
  destruct (scanner_starts_once
              dbscan.NewRowScanner
              [dbscan.CallScanRow samples.first_row samples.foo_dst;
               dbscan.CallSetStartFn samples.mock_start;
               dbscan.CallScanRow samples.second_row samples.foo_dst]
              eq_refl 1 s eq_refl)
    as (H1 & H2 & H3 & h0 & d0 & Hf & Hr & r & d & Hsc & Ho).
  change (Some (dbscan.default_start, samples.foo_dst) = Some (h0, d0)) in Hf.
  change (Some (samples.second_row, samples.foo_dst) = Some (r, d)) in Hsc.
  injection Hf as <- <-. injection Hsc as <- <-.
  exact (conj H1 (conj H2 (conj H3 (conj Hr Ho)))).
Defined.

(* --------------------------------------------------------------------- *)
(** ** Rows that repeat a column *)
(* --------------------------------------------------------------------- *)

Section RepeatedColumns.
Import dbscan.

Lemma repeated_None (cols : list string) : forall seen : gset string,
  repeated seen cols = None ->
  NoDup cols /\ forall c, c ∈ cols -> c ∉ seen.
Proof.
  induction cols as [|c cols IH]; intros seen H.
  - split; [constructor|]. intros c Hc. inversion Hc.
  - cbn [repeated] in H. destruct (decide (c ∈ seen)) as [|Hc]; [discriminate|].
    destruct (IH _ H) as [Hnd Hseen]. split.
    + constructor; [|assumption]. intros Hin.
      apply (Hseen c Hin), elem_of_union. left. now apply elem_of_singleton.
    + intros c' Hc'. apply elem_of_cons in Hc' as [->|Hc']; [assumption|].
      intros Hin. apply (Hseen c' Hc'), elem_of_union. now right.
Qed.

Lemma repeated_Some (cols : list string) : forall (seen : gset string) c,
  repeated seen cols = Some c ->
  exists j, cols !! j = Some c /\
            (c ∈ seen \/ exists i, i < j /\ cols !! i = Some c).
Proof.
  induction cols as [|c0 cols IH]; intros seen c H; [discriminate|].
  cbn [repeated] in H. destruct (decide (c0 ∈ seen)) as [Hc|Hc].
  - injection H as <-. exists 0. split; [reflexivity|now left].
  - destruct (IH _ _ H) as (j & Hj & Hor). exists (S j). split; [exact Hj|].
    destruct Hor as [Hin|(i & Hi & Hci)].
    + apply elem_of_union in Hin as [Hin|Hin]; [|now left].
      apply elem_of_singleton in Hin as ->.
      right. exists 0. split; [lia|reflexivity].
    + right. exists (S i). split; [lia|exact Hci].
Qed.

Lemma repeated_twice (cols : list string) :
  (exists i j c, i < j /\ cols !! i = Some c /\ cols !! j = Some c) ->
  exists c, repeated ∅ cols = Some c /\
            exists i j, i < j /\ cols !! i = Some c /\ cols !! j = Some c.
Proof.
  intros (i & j & c & Hij & Hi & Hj).
  destruct (repeated ∅ cols) as [c'|] eqn:Hrep.
  - exists c'. split; [reflexivity|].
    destruct (repeated_Some _ _ _ Hrep) as (j' & Hj' & [Hin|(i' & Hlt & Hi')]).
    + set_solver.
    + now exists i', j'.
  - destruct (repeated_None _ _ Hrep) as [Hnd _].
    pose proof (NoDup_lookup _ _ _ _ Hnd Hi Hj). lia.
Qed.

End RepeatedColumns.

(** C5.  A row whose column list has the same name twice is refused by
    the materializer with [DuplicateColumn] naming a column that occurs
    twice, whatever the destination (struct, mapping or scalar) and
    whatever the index; the destination is the one handed in: nothing has
    been scanned into it.  So does [ScanRow] on a scanner that holds an
    index. *)
Theorem duplicate_column_rejected
        (idx : dbscan.index) (r : dbscan.row) (d : dbscan.destination) :
  (exists i j c, i < j /\ dbscan.columns r !! i = Some c /\
                 dbscan.columns r !! j = Some c) ->
  exists c,
    dbscan.materialize idx r d = (d, Some (dbscan.DuplicateColumn c)) /\
    (exists i j, i < j /\ dbscan.columns r !! i = Some c /\
                 dbscan.columns r !! j = Some c) /\
    (forall rs,
        dbscan.state rs = dbscan.Started ->
        dbscan.resolved rs = inr idx ->
        dbscan.failure (dbscan.ScanRow rs r d) = Some (dbscan.DuplicateColumn c) /\
        dbscan.dest (dbscan.ScanRow rs r d) = d).
Proof.
  intros Hdup. destruct (repeated_twice _ Hdup) as (c & Hrep & Htwice).
  assert (Hm : dbscan.materialize idx r d = (d, Some (dbscan.DuplicateColumn c))).
  { unfold dbscan.materialize. now rewrite Hrep. }
  exists c. split; [exact Hm|]. split; [exact Htwice|].
  intros rs Hs Hr. unfold dbscan.ScanRow. rewrite Hs, Hr, Hm. now split.
Qed.

Lemma duplicate_column_rejected_witness :
  exists c,
    dbscan.materialize ∅ (samples.row_of [("foo", "foo val"); ("foo", "bar val")])
                       (dbscan.MapDst dbscan.StringKey ∅)
    = (dbscan.MapDst dbscan.StringKey ∅, Some (dbscan.DuplicateColumn c)) /\
    c = "foo".
Proof.
  destruct (duplicate_column_rejected
              ∅ (samples.row_of [("foo", "foo val"); ("foo", "bar val")])
              (dbscan.MapDst dbscan.StringKey ∅))
    as (c & Hm & (i & j & Hij & Hi & Hj) & _).
  - exists 0, 1, "foo". split; [lia|]. split; reflexivity.
  - exists c. split; [exact Hm|].
    destruct i as [|[|i]]; vm_compute in Hi; congruence.
Defined.

(* --------------------------------------------------------------------- *)
(** ** The field index of a shape *)
(* --------------------------------------------------------------------- *)

Section FieldIndex.
Import dbscan.

Lemma Some_agree {A} (o : option A) (x y : A) : o = Some x -> o = Some y -> x = y.
Proof. congruence. Qed.

Lemma lookup_map_fst {A B} (l : list (A * B)) i a b :
  l !! i = Some (a, b) -> map fst l !! i = Some a.
Proof. intros H. change (map fst l) with (fst <$> l). now rewrite list_lookup_fmap, H. Qed.

Lemma lookup_map_snd {A B} (l : list (A * B)) i a b :
  l !! i = Some (a, b) -> map snd l !! i = Some b.
Proof. intros H. change (map snd l) with (snd <$> l). now rewrite list_lookup_fmap, H. Qed.

Lemma member_induction (P : member -> Prop) :
  (forall name tag exported, P (Field name tag exported)) ->
  (forall name tag exported by_pointer members,
      Forall P members -> P (Embedded name tag exported by_pointer members)) ->
  forall m, P m.
Proof.
  intros HField HEmbedded. fix IH 1. intros [name tag exported|name tag exported b ms].
  - apply HField.
  - apply HEmbedded. induction ms as [|m ms IHms]; constructor.
    + apply IH.
    + exact IHms.
Qed.

Lemma resolve_member_Embedded prefix name tag exported b ms :
  resolve_member prefix (Embedded name tag exported b ms)
  = if exported then
      match tag with
      | Some t => if String.eqb t "-" then []
                  else resolve_members (prefix ++ t)%string 0 ms
      | None => resolve_members prefix 0 ms
      end
    else [].
Proof.
  assert (H : forall prefix' i,
             (fix each (i : nat) (ms : list member) : list (string * path) :=
                match ms with
                | [] => []
                | m' :: ms' =>
                    map (below i) (resolve_member prefix' m') ++ each (S i) ms'
                end) i ms
             = resolve_members prefix' i ms).
  { intros prefix'. induction ms as [|m ms IHms]; intros i; [reflexivity|].
    cbn [resolve_members]. now rewrite <- IHms. }
  cbn [resolve_member]. destruct exported; [|reflexivity].
  destruct tag as [t|]; [destruct (String.eqb t "-"); [reflexivity|]|]; apply H.
Qed.

(** A leaf resolved among [ms] from offset [i] on lies below one of the
    members. *)
Lemma elem_of_resolve_members prefix ms : forall i c p,
  (c, p) ∈ resolve_members prefix i ms <->
  exists j m q, ms !! j = Some m /\ p = (i + j) :: q /\
                (c, q) ∈ resolve_member prefix m.
Proof.
  induction ms as [|m ms IH]; intros i c p; cbn [resolve_members].
  - split; [intros H; inversion H|]. intros (j & m & q & Hj & _). discriminate.
  - rewrite elem_of_app, IH. split.
    + intros [H|(j & m' & q & Hj & -> & Hq)].
      * apply list_elem_of_fmap in H as ([c' q] & [= -> ->] & Hq).
        exists 0, m, q. cbn. rewrite Nat.add_0_r. auto.
      * exists (S j), m', q. cbn. rewrite Nat.add_succ_r. auto.
    + intros ([|j] & m' & q & Hj & -> & Hq).
      * left. injection Hj as <-. apply list_elem_of_fmap.
        exists (c, q). rewrite Nat.add_0_r. auto.
      * right. exists j, m', q. cbn in Hj. rewrite Nat.add_succ_r. auto.
Qed.

Lemma resolve_member_leaf : forall m prefix c q,
  (c, q) ∈ resolve_member prefix m ->
  match m with
  | Field _ _ _ => q = []
  | Embedded _ _ _ _ ms => leaf_path ms q
  end.
Proof.
  induction m as [name tag exported|name tag exported b ms IH]
    using member_induction; intros prefix c q H.
  - cbn [resolve_member] in H. destruct exported; [|inversion H].
    destruct tag as [t|]; [destruct (String.eqb t "-"); [inversion H|]|];
      apply list_elem_of_singleton in H; congruence.
  - rewrite resolve_member_Embedded in H.
    assert (Hin : exists prefix', (c, q) ∈ resolve_members prefix' 0 ms).
    { destruct exported; [|inversion H].
      destruct tag as [t|]; [destruct (String.eqb t "-"); [inversion H|]|]; eauto. }
    destruct Hin as (prefix' & Hin).
    apply elem_of_resolve_members in Hin as (j & m & q' & Hj & -> & Hq').
    cbn [leaf_path Nat.add]. rewrite Hj.
    apply (proj1 (Forall_lookup _ _) IH _ _ Hj) in Hq'.
    destruct m; exact Hq'.
Qed.

Lemma resolve_leaf_path ms c p : (c, p) ∈ resolve ms -> leaf_path ms p.
Proof.
  intros H. apply elem_of_resolve_members in H as (j & m & q & Hj & -> & Hq).
  cbn [leaf_path Nat.add]. rewrite Hj.
  apply resolve_member_leaf in Hq. destruct m; exact Hq.
Qed.

Lemma resolve_members_heads prefix ms : forall i p,
  p ∈ map snd (resolve_members prefix i ms) ->
  exists j q, p = j :: q /\ i <= j.
Proof.
  intros i p H. apply list_elem_of_fmap in H as ([c p'] & -> & H).
  apply elem_of_resolve_members in H as (j & m & q & _ & -> & _).
  exists (i + j), q. split; [reflexivity|lia].
Qed.

Lemma NoDup_resolve_members prefix ms :
  Forall (fun m => forall prefix, NoDup (map snd (resolve_member prefix m))) ms ->
  forall i, NoDup (map snd (resolve_members prefix i ms)).
Proof.
  induction 1 as [|m ms Hm _ IH]; intros i; cbn [resolve_members map].
  - constructor.
  - rewrite map_app. apply NoDup_app. split; [|split].
    + rewrite map_map. cbn [below snd].
      rewrite <- (map_map snd (cons i)).
      apply (NoDup_fmap_2 (cons i)), Hm.
    + intros p Hp Hp'.
      apply resolve_members_heads in Hp' as (j & q & -> & Hle).
      apply list_elem_of_fmap in Hp as ([c p'] & Heq & Hp).
      apply list_elem_of_fmap in Hp as ([c' q'] & [= -> ->] & _).
      cbn in Heq. injection Heq as -> _. lia.
    + apply IH.
Qed.

Lemma NoDup_resolve_member : forall m prefix,
  NoDup (map snd (resolve_member prefix m)).
Proof.
  induction m as [name tag exported|name tag exported b ms IH]
    using member_induction; intros prefix.
  - cbn [resolve_member]. destruct exported; [|constructor].
    destruct tag as [t|]; [destruct (String.eqb t "-"); [constructor|]|];
      apply NoDup_singleton.
  - rewrite resolve_member_Embedded. destruct exported; [|constructor].
    destruct tag as [t|]; [destruct (String.eqb t "-"); [constructor|]|];
      now apply NoDup_resolve_members.
Qed.

(** No two resolved leaves have the same access path. *)
Lemma NoDup_resolve ms : NoDup (map snd (resolve ms)).
Proof.
  apply NoDup_resolve_members, Forall_forall.
  intros m _. apply NoDup_resolve_member.
Qed.

Lemma enter_inl leaves : forall idx e,
  enter leaves idx = inl e ->
  exists c p q j,
    e = DuplicateColumnMapping c q p /\ leaves !! j = Some (c, p) /\
    (idx !! c = Some q \/ exists i, i < j /\ leaves !! i = Some (c, q)).
Proof.
  induction leaves as [|[c0 p0] leaves IH]; intros idx e H; [discriminate|].
  cbn [enter] in H. destruct (idx !! c0) as [q0|] eqn:Hc0.
  - injection H as <-. exists c0, p0, q0, 0. split; [reflexivity|].
    split; [reflexivity|now left].
  - destruct (IH _ _ H) as (c & p & q & j & -> & Hj & Hor).
    exists c, p, q, (S j). split; [reflexivity|]. split; [exact Hj|].
    destruct Hor as [Hl|(i & Hi & Hl)].
    + destruct (decide (c0 = c)) as [->|Hne].
      * rewrite lookup_insert_eq in Hl. injection Hl as ->.
        right. exists 0. split; [lia|reflexivity].
      * rewrite lookup_insert_ne in Hl by assumption. now left.
    + right. exists (S i). split; [lia|exact Hl].
Qed.

Lemma enter_inr leaves : forall idx idx',
  enter leaves idx = inr idx' ->
  NoDup (map fst leaves) /\
  (forall c, c ∈ map fst leaves -> idx !! c = None) /\
  (forall c p, idx' !! c = Some p <-> idx !! c = Some p \/ (c, p) ∈ leaves).
Proof.
  induction leaves as [|[c0 p0] leaves IH]; intros idx idx' H.
  - injection H as <-. split; [constructor|]. split.
    + intros c Hc. inversion Hc.
    + intros c p. split; [now left|]. intros [H|H]; [exact H|inversion H].
  - cbn [enter] in H. destruct (idx !! c0) as [q0|] eqn:Hc0; [discriminate|].
    destruct (IH _ _ H) as (Hnd & Hfresh & Hiff).
    assert (Hc0' : c0 ∉ map fst leaves).
    { intros Hin. specialize (Hfresh _ Hin). now rewrite lookup_insert_eq in Hfresh. }
    split; [|split].
    + cbn [map fst]. now constructor.
    + intros c Hc. cbn [map fst] in Hc.
      apply elem_of_cons in Hc as [->|Hc]; [exact Hc0|].
      specialize (Hfresh _ Hc).
      destruct (decide (c0 = c)) as [->|Hne]; [exact Hc0|].
      now rewrite lookup_insert_ne in Hfresh.
    + intros c p. rewrite Hiff, elem_of_cons. split.
      * intros [Hl|Hin]; [|now right; right].
        destruct (decide (c0 = c)) as [->|Hne].
        -- rewrite lookup_insert_eq in Hl. injection Hl as ->. right. now left.
        -- rewrite lookup_insert_ne in Hl by assumption. now left.
      * intros [Hl|[[= -> ->]|Hin]]; [| |now right].
        -- left. destruct (decide (c0 = c)) as [Heq|Hne].
           ++ subst c0. pose proof (eq_trans (eq_sym Hl) Hc0) as X. discriminate X.
           ++ now rewrite lookup_insert_ne.
        -- left. apply lookup_insert_eq.
Qed.

(** The materializer has no path that reports a mapping conflict. *)
Lemma materialize_not_mapping idx r d c p q :
  snd (materialize idx r d) <> Some (DuplicateColumnMapping c p q).
Proof.
  assert (Hbind : forall cols e, bind idx cols = inl e ->
                                 exists c', e = UnmappedColumn c').
  { induction cols as [|c0 cols IH]; intros e H; [discriminate|].
    cbn [bind] in H. destruct (idx !! c0); [|injection H as <-; eauto].
    destruct (bind idx cols); [|discriminate]. injection H as <-. now apply IH. }
  unfold materialize, populate.
  destruct (repeated ∅ (columns r)); [discriminate|].
  destruct d as [ms fields|keys entries|x].
  - destruct (bind idx (columns r)) as [e|paths] eqn:Hb.
    + destruct (Hbind _ _ Hb) as (c' & ->). discriminate.
    + destruct (fault r); discriminate.
  - destruct (fault r); discriminate.
  - destruct (columns r) as [|c0 [|c1 cols]]; try discriminate.
    destruct (fault r); discriminate.
Qed.

End FieldIndex.

(** C3.  When two members of a struct shape resolve to the same column
    name, building the field index fails with [DuplicateColumnMapping],
    which names the column and the access paths (the declaration-order
    indexes) of two different members that both resolve to it.  The error
    comes from the shape alone: the start hook fails with it on the first
    scan, whatever the row, and no materialization of a row reports it. *)
Theorem duplicate_column_mapping (ms : list dbscan.member) :
  (exists i j c p q, i < j /\ dbscan.resolve ms !! i = Some (c, p) /\
                     dbscan.resolve ms !! j = Some (c, q)) ->
  exists c p q,
    dbscan.build_index ms = inl (dbscan.DuplicateColumnMapping c p q) /\
    p <> q /\
    (exists i j, i < j /\ dbscan.resolve ms !! i = Some (c, p) /\
                 dbscan.resolve ms !! j = Some (c, q)) /\
    (forall fields r,
        let s := dbscan.ScanRow dbscan.NewRowScanner r (dbscan.StructDst ms fields) in
        dbscan.failure s = Some (dbscan.DuplicateColumnMapping c p q) /\
        dbscan.dest s = dbscan.StructDst ms fields) /\
    (forall idx r d c' p' q',
        snd (dbscan.materialize idx r d)
        <> Some (dbscan.DuplicateColumnMapping c' p' q')).
Proof.
  intros (i & j & c & p & q & Hij & Hi & Hj).
  destruct (dbscan.build_index ms) as [e|idx] eqn:Hb; unfold dbscan.build_index in Hb.
  - destruct (enter_inl _ _ _ Hb) as (c' & p' & q' & j' & -> & Hj' & Hor).
    destruct Hor as [Hl|(i' & Hlt & Hi')]; [now rewrite lookup_empty in Hl|].
    exists c', q', p'. split; [reflexivity|]. split; [|split; [|split]].
    + intros ->. pose proof (NoDup_resolve ms) as Hnd.
      assert (i' = j'); [|lia].
      apply (NoDup_lookup _ _ _ p' Hnd).
      * exact (lookup_map_snd _ _ _ _ Hi').
      * exact (lookup_map_snd _ _ _ _ Hj').
    + now exists i', j'.
    + intros fields r. cbn zeta. unfold dbscan.ScanRow. cbn.
      unfold dbscan.build_index. rewrite Hb. now split.
    + intros. apply materialize_not_mapping.
  - destruct (enter_inr _ _ _ Hb) as (Hnd & _).
    assert (i = j); [|lia].
    apply (NoDup_lookup _ _ _ c Hnd).
    + exact (lookup_map_fst _ _ _ _ Hi).
    + exact (lookup_map_fst _ _ _ _ Hj).
Qed.

Lemma duplicate_column_mapping_witness :
  dbscan.build_index [dbscan.Field "Foo" (Some "foo_column") true;
                      dbscan.Field "Bar" (Some "foo_column") true]
  = inl (dbscan.DuplicateColumnMapping "foo_column" [0] [1]).
Proof.
  destruct (duplicate_column_mapping
              [dbscan.Field "Foo" (Some "foo_column") true;
               dbscan.Field "Bar" (Some "foo_column") true])
    as (c & p & q & Hb & _).
  - exists 0, 1, "foo_column", [0], [1]. split; [lia|]. split; reflexivity.
  - reflexivity.
Defined.

(* --------------------------------------------------------------------- *)
(** ** Writing through access paths *)
(* --------------------------------------------------------------------- *)

Section AccessPaths.
Import dbscan.

Lemma fits_zero : forall m, fits m (zero m).
Proof.
  induction m as [name tag exported|name tag exported b ms IH]
    using member_induction; cbn [zero].
  - constructor.
  - destruct b; constructor.
    induction IH as [|m ms Hm _ IHms]; constructor; assumption.
Qed.

Lemma fits_zeros ms : Forall2 fits ms (map zero ms).
Proof. induction ms; constructor; [apply fits_zero|assumption]. Qed.

Lemma Forall2_fits_insert ms vs i m v :
  Forall2 fits ms vs -> ms !! i = Some m -> fits m v ->
  Forall2 fits ms (<[i := v]> vs).
Proof.
  intros H Hm Hv. rewrite <- (list_insert_id ms i m Hm).
  now apply Forall2_insert.
Qed.

(** What a path finds at a member that is not its last step. *)
Lemma leaf_path_step ms i j p :
  leaf_path ms (i :: j :: p) ->
  exists name tag exported b ms',
    ms !! i = Some (Embedded name tag exported b ms') /\ leaf_path ms' (j :: p).
Proof.
  cbn [leaf_path]. destruct (ms !! i) as [[name tag exported|name tag exported b ms']|];
    [discriminate| |contradiction].
  intros H. now exists name, tag, exported, b, ms'.
Qed.

Lemma leaf_path_last ms i :
  leaf_path ms [i] -> exists name tag exported, ms !! i = Some (Field name tag exported).
Proof.
  cbn [leaf_path]. destruct (ms !! i) as [[name tag exported|name tag exported b ms']|];
    [eauto|contradiction|contradiction].
Qed.

Lemma read_step vs i j p :
  read vs (i :: j :: p)
  = match vs !! i with
    | Some (Struct inner) => read inner (j :: p)
    | Some (Pointer (Some inner)) => read inner (j :: p)
    | _ => None
    end.
Proof. cbn [read]. destruct (vs !! i) as [[|inner|[inner|]]|]; reflexivity. Qed.

Lemma write_step ms vs i j p x :
  write ms vs (i :: j :: p) x
  = match ms !! i, vs !! i with
    | Some (Embedded _ _ _ _ ms'), Some (Struct inner) =>
        <[i := Struct (write ms' inner (j :: p) x)]> vs
    | Some (Embedded _ _ _ _ ms'), Some (Pointer (Some inner)) =>
        <[i := Pointer (Some (write ms' inner (j :: p) x))]> vs
    | Some (Embedded _ _ _ _ ms'), Some (Pointer None) =>
        <[i := Pointer (Some (write ms' (map zero ms') (j :: p) x))]> vs
    | _, _ => vs
    end.
Proof. reflexivity. Qed.

Lemma write_fits p : forall ms vs x,
  Forall2 fits ms vs -> leaf_path ms p -> Forall2 fits ms (write ms vs p x).
Proof.
  induction p as [|i p IH]; intros ms vs x Hfit Hp; [exact Hfit|].
  destruct p as [|j p].
  - destruct (leaf_path_last _ _ Hp) as (name & tag & exported & Hm).
    cbn [write]. apply (Forall2_fits_insert _ _ _ _ _ Hfit Hm). constructor.
  - destruct (leaf_path_step _ _ _ _ Hp) as (name & tag & exported & b & ms' & Hm & Hp').
    destruct (Forall2_lookup_l _ _ _ _ _ Hfit Hm) as (v & Hv & Hfv).
    cbn [write]. rewrite Hm, Hv.
    inversion Hfv as [|? ? ? ? inner Hin|? ? ? ?|? ? ? ? inner Hin]; subst;
      apply (Forall2_fits_insert _ _ _ _ _ Hfit Hm); constructor;
      apply IH; auto using fits_zeros.
Qed.

Lemma write_read p : forall ms vs x,
  Forall2 fits ms vs -> leaf_path ms p ->
  read (write ms vs p x) p = Some (Leaf x).
Proof.
  induction p as [|i p IH]; intros ms vs x Hfit Hp; [contradiction|].
  destruct p as [|j p].
  - destruct (leaf_path_last _ _ Hp) as (name & tag & exported & Hm).
    destruct (Forall2_lookup_l _ _ _ _ _ Hfit Hm) as (v & Hv & _).
    cbn [write read]. rewrite list_lookup_insert_eq; [reflexivity|].
    now apply lookup_lt_Some in Hv.
  - destruct (leaf_path_step _ _ _ _ Hp) as (name & tag & exported & b & ms' & Hm & Hp').
    destruct (Forall2_lookup_l _ _ _ _ _ Hfit Hm) as (v & Hv & Hfv).
    pose proof (lookup_lt_Some _ _ _ Hv) as Hlt.
    cbn [write]. rewrite Hm, Hv.
    inversion Hfv as [|? ? ? ? inner Hin|? ? ? ?|? ? ? ? inner Hin]; subst;
      cbn [read]; rewrite list_lookup_insert_eq by assumption;
      apply IH; auto using fits_zeros.
Qed.

(** A write at another leaf leaves what is read at [p] as it is. *)
Lemma write_read_other p : forall ms vs q x v,
  Forall2 fits ms vs -> leaf_path ms p -> leaf_path ms q -> p <> q ->
  read vs p = Some v ->
  read (write ms vs q x) p = Some v.
Proof.
  induction p as [|i p IH]; intros ms vs q x v Hfit Hp Hq Hne Hr; [contradiction|].
  destruct q as [|i' q]; [contradiction|].
  destruct (decide (i = i')) as [<-|Hi].
  2:{ assert (Hw : write ms vs (i' :: q) x !! i = vs !! i).
      { cbn [write]. destruct q as [|j q].
        - now rewrite list_lookup_insert_ne.
        - destruct (ms !! i') as [[| ? ? ? ? ms']|]; [reflexivity| |reflexivity].
          destruct (vs !! i') as [[|inner|[inner|]]|];
            try reflexivity; now rewrite list_lookup_insert_ne. }
      cbn [read] in *. now rewrite Hw. }
  destruct p as [|j p], q as [|j' q].
  - congruence.
  - destruct (leaf_path_last _ _ Hp) as (? & ? & ? & Hm).
    destruct (leaf_path_step _ _ _ _ Hq) as (? & ? & ? & ? & ? & Hm' & _).
    congruence.
  - destruct (leaf_path_last _ _ Hq) as (? & ? & ? & Hm).
    destruct (leaf_path_step _ _ _ _ Hp) as (? & ? & ? & ? & ? & Hm' & _).
    congruence.
  - destruct (leaf_path_step _ _ _ _ Hp) as (name & tag & exported & b & ms' & Hm & Hp').
    destruct (leaf_path_step _ _ _ _ Hq) as (? & ? & ? & ? & ms'' & Hm' & Hq').
    assert (ms'' = ms') as -> by congruence.
    destruct (Forall2_lookup_l _ _ _ _ _ Hfit Hm) as (w & Hw & Hfw).
    pose proof (lookup_lt_Some _ _ _ Hw) as Hlt.
    assert (Hne' : j :: p <> j' :: q) by congruence.
    rewrite write_step, Hm, Hw. rewrite read_step, Hw in Hr.
    inversion Hfw as [|? ? ? ? inner Hin|? ? ? ?|? ? ? ? inner Hin]; subst;
      try discriminate Hr;
      rewrite read_step, list_lookup_insert_eq by assumption;
      apply IH; auto.
Qed.

(** A write below member [j] leaves the other members as they are. *)
Lemma write_lookup_other ms vs q x i :
  head q <> Some i -> write ms vs q x !! i = vs !! i.
Proof.
  destruct q as [|j q]; [reflexivity|]. cbn [head]. intros Hne.
  assert (j <> i) by congruence.
  cbn [write]. destruct q as [|j' q].
  - now rewrite list_lookup_insert_ne.
  - destruct (ms !! j) as [[| ? ? ? ? ms']|]; [reflexivity| |reflexivity].
    destruct (vs !! j) as [[|inner|[inner|]]|];
      try reflexivity; now rewrite list_lookup_insert_ne.
Qed.

Lemma commit_fits bound : forall ms vs,
  Forall2 fits ms vs -> Forall (fun b => leaf_path ms (fst b)) bound ->
  Forall2 fits ms (commit ms vs bound).
Proof.
  induction bound as [|[q y] bound IH]; intros ms vs Hfit Hall; [exact Hfit|].
  inversion Hall as [|? ? Hq Hall']; subst. cbn [commit].
  apply IH; [|assumption]. now apply write_fits.
Qed.

Lemma commit_read_kept bound : forall ms vs p v,
  Forall2 fits ms vs -> Forall (fun b => leaf_path ms (fst b)) bound ->
  leaf_path ms p -> p ∉ map fst bound ->
  read vs p = Some v ->
  read (commit ms vs bound) p = Some v.
Proof.
  induction bound as [|[q y] bound IH]; intros ms vs p v Hfit Hall Hp Hnotin Hr;
    [exact Hr|].
  inversion Hall as [|? ? Hq Hall']; subst. cbn [fst] in Hq. cbn [commit].
  cbn [map fst] in Hnotin. apply not_elem_of_cons in Hnotin as [Hne Hnotin].
  apply IH; auto using write_fits.
  now apply write_read_other.
Qed.

(** After the commit, every bound leaf holds the value bound to it. *)
Lemma commit_read bound : forall ms vs p x,
  Forall2 fits ms vs -> Forall (fun b => leaf_path ms (fst b)) bound ->
  NoDup (map fst bound) -> (p, x) ∈ bound ->
  read (commit ms vs bound) p = Some (Leaf x).
Proof.
  induction bound as [|[q y] bound IH]; intros ms vs p x Hfit Hall Hnd Hin;
    [inversion Hin|].
  inversion Hall as [|? ? Hq Hall']; subst. cbn [fst] in Hq.
  cbn [map fst] in Hnd. apply NoDup_cons in Hnd as [Hq' Hnd].
  cbn [commit]. apply elem_of_cons in Hin as [[= -> ->]|Hin].
  - apply commit_read_kept; auto using write_fits, write_read.
  - apply IH; auto using write_fits.
Qed.

Lemma commit_lookup_other bound : forall ms vs i,
  Forall (fun b => head (fst b) <> Some i) bound ->
  commit ms vs bound !! i = vs !! i.
Proof.
  induction bound as [|[q y] bound IH]; intros ms vs i Hall; [reflexivity|].
  inversion Hall as [|? ? Hq Hall']; subst. cbn [fst] in Hq. cbn [commit].
  rewrite IH by assumption. now apply write_lookup_other.
Qed.

End AccessPaths.

(* --------------------------------------------------------------------- *)
(** ** Materializing a row into a struct *)
(* --------------------------------------------------------------------- *)

Section Materialize.
Import dbscan.

Lemma build_index_lookup ms idx c p :
  build_index ms = inr idx -> (idx !! c = Some p <-> (c, p) ∈ resolve ms).
Proof.
  intros H. destruct (enter_inr _ _ _ H) as (_ & _ & Hiff).
  rewrite Hiff, lookup_empty. split; [intros [?|?]; [discriminate|assumption]|auto].
Qed.

(** Two columns of an index never share an access path. *)
Lemma build_index_inj ms idx c1 c2 p :
  build_index ms = inr idx ->
  idx !! c1 = Some p -> idx !! c2 = Some p -> c1 = c2.
Proof.
  intros H H1 H2.
  apply (build_index_lookup _ _ _ _ H), list_elem_of_lookup in H1 as (i & Hi).
  apply (build_index_lookup _ _ _ _ H), list_elem_of_lookup in H2 as (j & Hj).
  assert (i = j) as ->.
  { apply (NoDup_lookup _ _ _ p (NoDup_resolve ms)).
    - exact (lookup_map_snd _ _ _ _ Hi).
    - exact (lookup_map_snd _ _ _ _ Hj). }
  congruence.
Qed.

Lemma bind_inr (idx : index) (cs : list (string * native)) : forall paths,
  bind idx (map fst cs) = inr paths ->
  Forall2 (fun cx p => idx !! (fst cx) = Some p) cs paths.
Proof.
  induction cs as [|[c x] cs IH]; intros paths H.
  - injection H as <-. constructor.
  - cbn [map fst bind] in H. destruct (idx !! c) as [p|] eqn:Hc; [|discriminate].
    destruct (bind idx (map fst cs)) as [e|ps]; [discriminate|].
    injection H as <-. constructor; [exact Hc|]. now apply IH.
Qed.

Section Bound.
Variable idx : index.
Abbreviation bound_to cs paths :=
  (Forall2 (fun (cx : string * native) (p : path) => idx !! (fst cx) = Some p)
           cs paths).

Lemma bound_paths cs paths :
  bound_to cs paths -> map fst (zip paths (map snd cs)) = paths.
Proof. induction 1; cbn; [reflexivity|]. now f_equal. Qed.

Lemma bound_elem cs paths c x q :
  bound_to cs paths -> (c, x) ∈ cs -> idx !! c = Some q ->
  (q, x) ∈ zip paths (map snd cs).
Proof.
  induction 1 as [|[c0 x0] p cs paths Hp _ IH]; intros Hin Hq; [inversion Hin|].
  cbn [map snd zip zip_with]. apply elem_of_cons in Hin as [[= -> ->]|Hin].
  - cbn [fst] in Hp. rewrite (Some_agree _ _ _ Hq Hp). left.
  - right. now apply IH.
Qed.

Lemma bound_column cs paths p :
  bound_to cs paths -> p ∈ paths ->
  exists c, c ∈ map fst cs /\ idx !! c = Some p.
Proof.
  induction 1 as [|[c0 x0] p0 cs paths Hp _ IH]; intros Hin; [inversion Hin|].
  apply elem_of_cons in Hin as [->|Hin].
  - exists c0. split; [left|exact Hp].
  - destruct (IH Hin) as (c & Hc & Hl). exists c. split; [now right|exact Hl].
Qed.

Lemma bound_NoDup cs paths :
  (forall c1 c2 p, idx !! c1 = Some p -> idx !! c2 = Some p -> c1 = c2) ->
  bound_to cs paths -> NoDup (map fst cs) -> NoDup paths.
Proof.
  intros Hinj. induction 1 as [|[c0 x0] p0 cs paths Hp Hall IH]; intros Hnd;
    [constructor|].
  cbn [map fst] in Hnd. apply NoDup_cons in Hnd as [Hc0 Hnd].
  constructor; [|now apply IH].
  intros Hin. destruct (bound_column _ _ _ Hall Hin) as (c & Hc & Hl).
  cbn [fst] in Hp. now rewrite (Hinj _ _ _ Hp Hl) in Hc0.
Qed.

End Bound.

End Materialize.

(** C4.  Take a struct destination with a member embedded by pointer (at
    offset [i]) whose pointer is nil.  After materializing a row: if no
    column of the row maps to a field beneath that member, the pointer is
    still nil; and if the row was materialized and a column of it maps to
    a field beneath the member, the pointer is not nil and that field
    holds the row's value for the column. *)
Theorem embedded_pointer_lazy
        (ms : list dbscan.member) (idx : dbscan.index)
        (fields : list dbscan.value) (r : dbscan.row)
        (i : nat) (name : string) (tag : option string) (exported : bool)
        (members : list dbscan.member) :
  dbscan.build_index ms = inr idx ->
  Forall2 dbscan.fits ms fields ->
  ms !! i = Some (dbscan.Embedded name tag exported true members) ->
  fields !! i = Some (dbscan.Pointer None) ->
  exists fields',
    fst (dbscan.materialize idx r (dbscan.StructDst ms fields))
    = dbscan.StructDst ms fields' /\
    ((forall c p, c ∈ dbscan.columns r -> idx !! c = Some p -> head p <> Some i) ->
     fields' !! i = Some (dbscan.Pointer None)) /\
    (snd (dbscan.materialize idx r (dbscan.StructDst ms fields)) = None ->
     forall c x p,
       (c, x) ∈ dbscan.cells r -> idx !! c = Some (i :: p) ->
       exists target,
         fields' !! i = Some (dbscan.Pointer (Some target)) /\
         dbscan.read fields' (i :: p) = Some (dbscan.Leaf x)).
Proof.
  intros Hidx Hfit Hm Hnil.
  assert (Hsame : exists fields' : list dbscan.value,
             dbscan.StructDst ms fields = dbscan.StructDst ms fields' /\
             ((forall c p, c ∈ dbscan.columns r -> idx !! c = Some p ->
                           head p <> Some i) ->
              fields' !! i = Some (dbscan.Pointer None)))
    by (exists fields; auto).
  unfold dbscan.materialize, dbscan.populate, dbscan.columns.
  destruct (dbscan.repeated ∅ (map fst (dbscan.cells r))) as [c0|] eqn:Hrep.
  { destruct Hsame as (f & ? & ?). exists f. cbn [fst snd]. repeat split; auto.
    discriminate. }
  destruct (dbscan.bind idx (map fst (dbscan.cells r))) as [e|paths] eqn:Hbind.
  { destruct Hsame as (f & ? & ?). exists f. cbn [fst snd]. repeat split; auto.
    discriminate. }
  destruct (dbscan.fault r) as [message|].
  { destruct Hsame as (f & ? & ?). exists f. cbn [fst snd]. repeat split; auto.
    discriminate. }
  clear Hsame. cbn [fst snd].
  apply repeated_None in Hrep as [Hnd _].
  apply bind_inr in Hbind.
  remember (zip paths (map snd (dbscan.cells r))) as bound eqn:Hbound.
  assert (Hpaths : map fst bound = paths)
    by (rewrite Hbound; exact (bound_paths idx _ _ Hbind)).
  assert (Hleaf : Forall (fun b => dbscan.leaf_path ms (fst b)) bound).
  { apply Forall_forall. intros [q y] Hin. cbn [fst].
    assert (Hq : q ∈ paths).
    { rewrite <- Hpaths. apply list_elem_of_fmap. now exists (q, y). }
    destruct (bound_column idx _ _ _ Hbind Hq) as (c & _ & Hc).
    apply (resolve_leaf_path ms c), (build_index_lookup _ _ _ _ Hidx), Hc. }
  exists (dbscan.commit ms fields bound). split; [reflexivity|]. split.
  - intros Hnone. rewrite commit_lookup_other; [exact Hnil|].
    apply Forall_forall. intros [q y] Hin. cbn [fst].
    assert (Hq : q ∈ paths).
    { rewrite <- Hpaths. apply list_elem_of_fmap. now exists (q, y). }
    destruct (bound_column idx _ _ _ Hbind Hq) as (c & Hc & Hl).
    exact (Hnone c q Hc Hl).
  - intros _ c x p Hin Hl.
    assert (Hread : dbscan.read (dbscan.commit ms fields bound) (i :: p)
                    = Some (dbscan.Leaf x)).
    { apply commit_read; auto.
      - rewrite Hpaths. apply (bound_NoDup idx (dbscan.cells r) paths); auto.
        intros c1 c2 q. apply (build_index_inj _ _ _ _ _ Hidx).
      - rewrite Hbound. now apply (bound_elem idx _ _ c). }
    pose proof (commit_fits bound ms fields Hfit Hleaf) as Hfit'.
    destruct (Forall2_lookup_l _ _ _ _ _ Hfit' Hm) as (v & Hv & Hfv).
    assert (Hp : dbscan.leaf_path ms (i :: p)).
    { apply (resolve_leaf_path ms c), (build_index_lookup _ _ _ _ Hidx), Hl. }
    destruct p as [|j p].
    { apply leaf_path_last in Hp as (? & ? & ? & Hm'). congruence. }
    rewrite read_step, Hv in Hread.
    inversion Hfv as [| |? ? ? ?|? ? ? ? inner Hin']; subst.
    + discriminate Hread.
    + exists inner. split; [exact Hv|].
      now rewrite read_step, Hv.
Qed.

Lemma embedded_pointer_lazy_witness :
  exists fields',
    fst (dbscan.materialize
           {[ "foo_nested" := [0; 0]; "foo" := [1]; "bar" := [2] ]}
           (samples.row_of [("foo", "foo val"); ("foo_nested", "foo nested val")])
           (samples.zero_struct samples.by_ptr))
    = dbscan.StructDst samples.by_ptr fields' /\
    exists target,
      fields' !! 0 = Some (dbscan.Pointer (Some target)) /\
      dbscan.read fields' [0; 0] = Some (dbscan.Leaf (dbscan.Text "foo nested val")).
Proof.
  destruct (embedded_pointer_lazy
              samples.by_ptr
              {[ "foo_nested" := [0; 0]; "foo" := [1]; "bar" := [2] ]}
              (map dbscan.zero samples.by_ptr)
              (samples.row_of [("foo", "foo val"); ("foo_nested", "foo nested val")])
              0 "FooNested" None true samples.FooNested)
    as (fields' & Hdst & _ & Hset).
  - vm_compute. reflexivity.
  - apply fits_zeros.
  - reflexivity.
  - reflexivity.
  - exists fields'. split; [exact Hdst|].
    apply (Hset eq_refl "foo_nested").
    + right. left.
    + reflexivity.
Defined.

(* ===================================================================== *)
(** * More of the code *)
(* ===================================================================== *)

(* --------------------------------------------------------------------- *)
(** ** The name normalizer on any text *)
(* --------------------------------------------------------------------- *)

Section SnakeCaseMore.

Lemma isUpper_code c :
  isUpper c = true <-> 65 <= nat_of_ascii c /\ nat_of_ascii c <= 90.
Proof.
  unfold isUpper, in_class, in_range. cbn [existsb fst snd].
  rewrite orb_false_r, andb_true_iff, !Nat.leb_le. reflexivity.
Qed.

Lemma isLower_code c :
  isLower c = true <-> 97 <= nat_of_ascii c /\ nat_of_ascii c <= 122.
Proof.
  unfold isLower, in_class, in_range. cbn [existsb fst snd].
  rewrite orb_false_r, andb_true_iff, !Nat.leb_le. reflexivity.
Qed.

Lemma toLowerByte_code c :
  isUpper c = true ->
  nat_of_ascii (strings.toLowerByte c) = nat_of_ascii c + 32.
Proof.
  intros Hu. unfold strings.toLowerByte. rewrite Hu.
  apply isUpper_code in Hu. apply nat_ascii_embedding. lia.
Qed.

Lemma toLowerByte_not_upper c : isUpper (strings.toLowerByte c) = false.
Proof.
  destruct (isUpper c) eqn:Hu.
  - apply not_true_is_false. intros H. apply isUpper_code in H.
    rewrite (toLowerByte_code c Hu) in H. apply isUpper_code in Hu. lia.
  - unfold strings.toLowerByte. now rewrite Hu.
Qed.

Lemma toLowerByte_underscore_iff c :
  not_underscore (strings.toLowerByte c) = not_underscore c.
Proof.
  unfold not_underscore. f_equal.
  destruct (isUpper c) eqn:Hu; [|unfold strings.toLowerByte; now rewrite Hu].
  pose proof (toLowerByte_code c Hu) as Hcode. apply isUpper_code in Hu.
  destruct (Ascii.eqb_spec (strings.toLowerByte c) underscore) as [E|_];
    destruct (Ascii.eqb_spec c underscore) as [E'|_]; try reflexivity.
  - rewrite E in Hcode. change (nat_of_ascii underscore) with 95 in Hcode. lia.
  - rewrite E' in Hu. change (nat_of_ascii underscore) with 95 in Hu. lia.
Qed.

Lemma list_ascii_of_string_app (x y : string) :
  list_ascii_of_string (x ++ y)%string
  = list_ascii_of_string x ++ list_ascii_of_string y.
Proof.
  rewrite <- (string_of_list_ascii_of_string x) at 1.
  rewrite <- (string_of_list_ascii_of_string y) at 1.
  now rewrite <- string_of_list_ascii_app, list_ascii_of_string_of_list_ascii.
Qed.

Lemma String_length_bytes (s : string) :
  String.length s = length (list_ascii_of_string s).
Proof. induction s as [|c s IH]; cbn; [reflexivity|now rewrite IH]. Qed.

Lemma toSnakeCase_bytes_of (s : string) :
  list_ascii_of_string (toSnakeCase s)
  = strings.ToLower (underscored_all (list_ascii_of_string s)).
Proof.
  unfold toSnakeCase.
  now rewrite list_ascii_of_string_of_list_ascii, toSnakeCase_bytes_underscored.
Qed.

(** No capital after the first byte: nothing is inserted. *)
Lemma underscored_tail_no_upper s : forall c,
  forallb (fun d => negb (isUpper d)) s = true -> underscored c s = c :: s.
Proof.
  induction s as [|d s IH]; intros c H; [reflexivity|].
  cbn [forallb] in H. apply andb_true_iff in H as [Hd Hs].
  apply negb_true_iff in Hd.
  cbn [underscored]. unfold inserts_before. rewrite Hd. cbn [andb app].
  now rewrite (IH d Hs).
Qed.

(** Capitals only: nothing is inserted. *)
Lemma underscored_all_upper s : forall c,
  forallb isUpper (c :: s) = true -> underscored c s = c :: s.
Proof.
  induction s as [|d s IH]; intros c H; [reflexivity|].
  cbn [forallb] in H. apply andb_true_iff in H as [Hc Hs].
  cbn [underscored]. rewrite (IH d Hs). f_equal.
  unfold inserts_before. rewrite (upper_not_lowerdigit c Hc). cbn [orb].
  replace (from_option isLower false (head s)) with false;
    [now rewrite !andb_false_r|].
  destruct s as [|e s]; [reflexivity|]. cbn [head from_option].
  cbn [forallb] in Hs. apply andb_true_iff in Hs as [_ Hs].
  apply andb_true_iff in Hs as [He _].
  destruct (isLower e) eqn:Hl; [|reflexivity].
  apply lower_not_upper in Hl. congruence.
Qed.

Lemma ToLower_no_upper s :
  forallb (fun d => negb (isUpper d)) s = true -> strings.ToLower s = s.
Proof.
  induction s as [|d s IH]; intros H; [reflexivity|].
  cbn [forallb] in H. apply andb_true_iff in H as [Hd Hs].
  apply negb_true_iff in Hd. unfold strings.ToLower in *. cbn [map].
  rewrite (IH Hs). unfold strings.toLowerByte. now rewrite Hd.
Qed.

Lemma ToLower_has_no_upper s :
  forallb (fun d => negb (isUpper d)) (strings.ToLower s) = true.
Proof.
  induction s as [|d s IH]; [reflexivity|].
  unfold strings.ToLower in *. cbn [map forallb].
  now rewrite toLowerByte_not_upper, IH.
Qed.

Lemma filter_ToLower s :
  List.filter not_underscore (strings.ToLower s)
  = strings.ToLower (List.filter not_underscore s).
Proof.
  induction s as [|d s IH]; [reflexivity|]. unfold strings.ToLower in *.
  cbn [map List.filter]. rewrite toLowerByte_underscore_iff, IH.
  now destruct (not_underscore d).
Qed.

Lemma underscored_filter s : forall c,
  List.filter not_underscore (underscored c s)
  = List.filter not_underscore (c :: s).
Proof.
  induction s as [|d s IH]; intros c; [reflexivity|].
  cbn [underscored]. cbn [List.filter]. rewrite List.filter_app, IH.
  destruct (inserts_before c d (head s)); reflexivity.
Qed.

Lemma underscored_length s : forall c,
  S (length s) <= length (underscored c s) <= 2 * length s + 1.
Proof.
  induction s as [|d s IH]; intros c; [cbn; lia|].
  cbn [underscored length]. rewrite length_app. specialize (IH d).
  destruct (inserts_before c d (head s)); cbn [length]; lia.
Qed.

Lemma last_cons_default {A} (s : list A) : forall e c,
  List.last (e :: s) c = List.last s e.
Proof.
  induction s as [|e' s IH]; intros e c; [reflexivity|].
  change (List.last (e :: e' :: s) c) with (List.last (e' :: s) c).
  now rewrite (IH e' c), (IH e' e).
Qed.

(** Joining two texts where the first does not end in a capital, or the
    second does not start with a lowercase letter: the underscores of
    each part stay, and the junction is judged by [inserts_before]. *)
Lemma underscored_app s : forall c d t,
  isUpper (List.last s c) = false \/ isLower d = false ->
  underscored c (s ++ d :: t)
  = underscored c s
    ++ (if inserts_before (List.last s c) d (head t) then [underscore] else [])
    ++ underscored d t.
Proof.
  induction s as [|e s IH]; intros c d t H; [reflexivity|].
  rewrite (last_cons_default s e c) in *.
  cbn [app underscored]. rewrite (IH e d t H), <- !app_assoc. cbn [app].
  f_equal. f_equal.
  destruct s as [|e' s]; [|reflexivity].
  cbn [app head List.last] in *. unfold inserts_before. cbn [from_option].
  destruct H as [H|H]; rewrite H; [reflexivity|].
  now rewrite !andb_false_r.
Qed.

End SnakeCaseMore.

(** X1.  On any ASCII text [toSnakeCase] gives the text in lowercase with
    one underscore put before a byte exactly when that byte is a capital
    and either the byte before it is a lowercase letter or a digit, or
    the byte before it is no newline and the byte after it is a lowercase
    letter.  (So a capitalised word that follows an underscore, a dot or
    a space also gets an underscore in front.) *)
Theorem toSnakeCase_any_text (s : string) :
  ascii_text s ->
  toSnakeCase s
  = string_of_list_ascii
      (strings.ToLower (underscored_all (list_ascii_of_string s))) /\
  (forall c d next,
      inserts_before c d next
      = isUpper d &&
        (isLower c || isDigit c ||
         (negb (Ascii.eqb c newline) && from_option isLower false next))).
Proof.
  intros _. split.
  - unfold toSnakeCase. now rewrite toSnakeCase_bytes_underscored.
  - intros c d next. unfold inserts_before. now rewrite isLowerOrDigit_split.
Qed.

Lemma toSnakeCase_any_text_witness :
  ascii_text "user.First_Name" /\
  toSnakeCase "user.First_Name" = "user._first__name".
Proof.
  split; [reflexivity|].
  rewrite (proj1 (toSnakeCase_any_text "user.First_Name" eq_refl)).
  reflexivity.
Defined.

(** X2.  The result of [toSnakeCase] on ASCII text has no capital letter,
    and [toSnakeCase] leaves it as it is: normalizing twice is
    normalizing once. *)
Theorem toSnakeCase_idempotent (s : string) :
  ascii_text s ->
  forallb (fun c => negb (isUpper c)) (list_ascii_of_string (toSnakeCase s)) = true /\
  toSnakeCase (toSnakeCase s) = toSnakeCase s.
Proof.
  intros _.
  assert (H : forallb (fun c => negb (isUpper c))
                      (list_ascii_of_string (toSnakeCase s)) = true).
  { rewrite toSnakeCase_bytes_of. apply ToLower_has_no_upper. }
  split; [exact H|].
  rewrite <- (string_of_list_ascii_of_string (toSnakeCase (toSnakeCase s))).
  rewrite <- (string_of_list_ascii_of_string (toSnakeCase s)) at 2.
  f_equal. rewrite (toSnakeCase_bytes_of (toSnakeCase s)).
  destruct (list_ascii_of_string (toSnakeCase s)) as [|c bs]; [reflexivity|].
  cbn [underscored_all]. pose proof H as H'.
  cbn [forallb] in H'. apply andb_true_iff in H' as [_ Hbs].
  rewrite (underscored_tail_no_upper bs c Hbs). now apply ToLower_no_upper.
Qed.

Lemma toSnakeCase_idempotent_witness :
  toSnakeCase (toSnakeCase "HTTPServer v2.Name") = toSnakeCase "HTTPServer v2.Name".
Proof. exact (proj2 (toSnakeCase_idempotent "HTTPServer v2.Name" eq_refl)). Defined.

(** X3.  [toSnakeCase] only lowercases and adds underscores: with the
    underscores taken out, the result is the lowercase text with its
    underscores taken out; and the result has at least the length of the
    text and at most twice that length. *)
Theorem toSnakeCase_adds_underscores_only (s : string) :
  ascii_text s ->
  List.filter not_underscore (list_ascii_of_string (toSnakeCase s))
  = List.filter not_underscore (strings.ToLower (list_ascii_of_string s)) /\
  String.length s <= String.length (toSnakeCase s) <= 2 * String.length s.
Proof.
  intros _. rewrite !String_length_bytes, toSnakeCase_bytes_of.
  destruct (list_ascii_of_string s) as [|c bs]; [cbn; split; [reflexivity|lia]|].
  cbn [underscored_all]. split.
  - now rewrite !filter_ToLower, underscored_filter.
  - unfold strings.ToLower. rewrite length_map.
    pose proof (underscored_length bs c). cbn [length]. lia.
Qed.

Lemma toSnakeCase_adds_underscores_only_witness :
  List.filter not_underscore (list_ascii_of_string (toSnakeCase "Foo_BarBaz"))
  = list_ascii_of_string "foobarbaz".
Proof.
  rewrite (proj1 (toSnakeCase_adds_underscores_only "Foo_BarBaz" eq_refl)).
  reflexivity.
Defined.

(** X4.  Snake case of a camel-case junction: when a text that ends in a
    lowercase letter or a digit is followed by one that starts with a
    capital, or a text that ends in a capital is followed by a capital
    and then a lowercase letter, the result for the whole is the results
    for the two parts joined by an underscore. *)
Theorem toSnakeCase_junction (a b : string) (c d : ascii) :
  ascii_text (a ++ String c "")%string ->
  ascii_text (String d b) ->
  (isLowerOrDigit c = true /\ isUpper d = true) \/
  (isUpper c = true /\ isUpper d = true /\
   exists l b', b = String l b' /\ isLower l = true) ->
  toSnakeCase ((a ++ String c "") ++ String d b)%string
  = (toSnakeCase (a ++ String c "") ++ "_" ++ toSnakeCase (String d b))%string.
Proof.
  intros _ _ Hj.
  set (A := list_ascii_of_string a).
  set (B := list_ascii_of_string b).
  assert (HA : list_ascii_of_string (a ++ String c "")%string = A ++ [c])
    by (now rewrite list_ascii_of_string_app).
  assert (Hside : isUpper (List.last (A ++ [c]) c) = false \/ isLower d = false).
  { rewrite List.last_last. destruct Hj as [[Hc _]|(_ & Hd & _)].
    - left. destruct (isUpper c) eqn:Hu; [|reflexivity].
      apply upper_not_lowerdigit in Hu. congruence.
    - right. destruct (isLower d) eqn:Hl; [|reflexivity].
      apply lower_not_upper in Hl. congruence. }
  assert (Hins : inserts_before c d (head B) = true).
  { unfold inserts_before. destruct Hj as [[Hc Hd]|(Hc & Hd & l & b' & Hb & Hl)].
    - now rewrite Hc, Hd.
    - rewrite Hd. subst B. rewrite Hb. cbn [list_ascii_of_string head from_option].
      rewrite Hl, andb_true_r. cbn [andb].
      replace (negb (Ascii.eqb c newline)) with true; [now rewrite orb_true_r|].
      symmetry. apply negb_true_iff. apply Ascii.eqb_neq. intros ->.
      discriminate Hc. }
  rewrite <- (string_of_list_ascii_of_string
                (toSnakeCase ((a ++ String c "") ++ String d b))).
  rewrite <- (string_of_list_ascii_of_string (toSnakeCase (a ++ String c ""))).
  rewrite <- (string_of_list_ascii_of_string (toSnakeCase (String d b))).
  change "_" with (string_of_list_ascii [underscore]).
  rewrite <- !string_of_list_ascii_app. f_equal.
  rewrite !toSnakeCase_bytes_of, list_ascii_of_string_app, HA.
  cbn [list_ascii_of_string]. fold B.
  destruct (A ++ [c]) as [|x xs] eqn:Hx; [now destruct A|].
  cbn [app underscored_all].
  assert (Hl : List.last xs x = List.last (x :: xs) c)
    by (now rewrite last_cons_default).
  rewrite underscored_app by (now rewrite Hl).
  rewrite Hl, <- Hx, List.last_last, Hins.
  unfold strings.ToLower. now rewrite !map_app.
Qed.

Lemma toSnakeCase_junction_witness :
  toSnakeCase "HTTPServer" = (toSnakeCase "HTTP" ++ "_" ++ toSnakeCase "Server")%string.
Proof.
  refine (toSnakeCase_junction "HTT" "erver" "P" "S" eq_refl eq_refl _).
  right. split; [reflexivity|]. split; [reflexivity|].
  exists "e"%char, "rver". split; reflexivity.
Defined.

(** X5.  A text of capitals only (an acronym), and a text with no capital
    after its first byte (one word), come out in lowercase with no
    underscore added. *)
Theorem toSnakeCase_one_word (s : string) :
  ascii_text s ->
  forallb isUpper (list_ascii_of_string s) = true \/
  forallb (fun c => negb (isUpper c)) (List.tl (list_ascii_of_string s)) = true ->
  toSnakeCase s = lowercase s.
Proof.
  intros _ H. unfold lowercase.
  rewrite <- (string_of_list_ascii_of_string (toSnakeCase s)).
  f_equal. rewrite toSnakeCase_bytes_of.
  destruct (list_ascii_of_string s) as [|c bs]; [reflexivity|].
  cbn [underscored_all List.tl] in *. f_equal.
  destruct H as [H|H].
  - now apply underscored_all_upper.
  - now apply underscored_tail_no_upper.
Qed.

Lemma toSnakeCase_one_word_witness :
  toSnakeCase "ID" = "id" /\ toSnakeCase "Email2" = "email2".
Proof.
  split.
  - rewrite (toSnakeCase_one_word "ID" eq_refl (or_introl eq_refl)). reflexivity.
  - rewrite (toSnakeCase_one_word "Email2" eq_refl (or_intror eq_refl)). reflexivity.
Defined.

(* --------------------------------------------------------------------- *)
(** ** More about [Insert] *)
(* --------------------------------------------------------------------- *)

Section InsertMore.

Context {float64 : Type} (Sprintf_f : float64 -> string).

Lemma supported_dec (data : StructData float64) :
  Forall (fun fv => supported (Kind (snd fv)) = true) data \/
  Exists (fun fv => supported (Kind (snd fv)) = false) data.
Proof.
  induction data as [|[f v] data [IH|IH]].
  - left. constructor.
  - destruct (supported (Kind v)) eqn:Hk.
    + left. now constructor.
    + right. now left.
  - right. now right.
Qed.

Lemma supported_exclusive (data : StructData float64) :
  Forall (fun fv => supported (Kind (snd fv)) = true) data ->
  Exists (fun fv => supported (Kind (snd fv)) = false) data -> False.
Proof.
  intros Hall Hex. apply Exists_exists in Hex as (fv & Hin & Hk).
  rewrite Forall_forall in Hall. specialize (Hall fv Hin). congruence.
Qed.

(** The loop walks over a supported prefix and goes on with what
    follows. *)
Lemma Insert_loop_app (pre rest : StructData float64) :
  forall dbCols dbVals,
    Forall (fun fv => supported (Kind (snd fv)) = true) pre ->
    Insert_loop Sprintf_f (pre ++ rest) dbCols dbVals
    = Insert_loop Sprintf_f rest
        (dbCols ++ map (fun fv => column_of (fst fv)) pre)
        (dbVals ++ map (fun fv => text_of Sprintf_f (snd fv)) pre).
Proof.
  induction pre as [|[field value] pre IH]; intros dbCols dbVals Hall.
  - cbn. now rewrite !app_nil_r.
  - inversion Hall as [|? ? Hk Hall']; subst. cbn [snd] in Hk.
    cbn [app Insert_loop map fst snd]. unfold column_of, text_of.
    destruct (reflect.Lookup (reflect.Tag field) "pgx");
      destruct (Kind value); try discriminate Hk;
      rewrite (IH _ _ Hall'), <- !app_assoc; reflexivity.
Qed.

Lemma Wraps_Wrap (e : errors.error) (message : string) :
  errors.Wraps (errors.withStack (errors.withMessage e message)) e.
Proof.
  apply (errors.Wraps_unwrap _ (errors.withMessage e message)); [reflexivity|].
  apply (errors.Wraps_unwrap _ e); [reflexivity|]. constructor.
Qed.

End InsertMore.

(** X6.  [Insert] sends one statement when every field has a supported
    kind and none when some field has not, never more; and when it sends
    none its outcome does not depend on the database at all. *)
Theorem Insert_sends_one_or_none (float64 : Type) (Sprintf_f : float64 -> string)
        (db : Querier) (data : StructData float64)
        (table additionalQuery : string) :
  let outcome := Insert Sprintf_f db data table additionalQuery in
  (length (sent outcome) = 1 <->
   Forall (fun fv => supported (Kind (snd fv)) = true) data) /\
  (sent outcome = [] <->
   Exists (fun fv => supported (Kind (snd fv)) = false) data) /\
  length (sent outcome) <= 1 /\
  (sent outcome = [] ->
   forall db', Insert Sprintf_f db' data table additionalQuery = outcome).
Proof.
  cbn zeta. unfold Insert.
  destruct (supported_dec data) as [Hall|Hex].
  - rewrite (Insert_loop_supported Sprintf_f data [] [] Hall). cbn [sent length].
    split; [tauto|]. split; [|split; [lia|discriminate]].
    split; [discriminate|]. intros Hex.
    destruct (supported_exclusive data Hall Hex).
  - destruct (Insert_loop_unsupported Sprintf_f data [] [] Hex)
      as (f & v & _ & _ & Heq).
    rewrite Heq. cbn [sent length].
    split; [|split; [tauto|split; [lia|reflexivity]]].
    split; [discriminate|]. intros Hall.
    destruct (supported_exclusive data Hall Hex).
Qed.

(** X7.  The error of [Insert] is about the first field, in declaration
    order, whose kind is not supported; the fields after it are not
    looked at. *)
Theorem Insert_first_unsupported (float64 : Type) (Sprintf_f : float64 -> string)
        (db : Querier) (before after : StructData float64)
        (field : reflect.StructField) (value : Value float64)
        (table additionalQuery : string) :
  Forall (fun fv => supported (Kind (snd fv)) = true) before ->
  supported (Kind value) = false ->
  Insert Sprintf_f db (before ++ (field, value) :: after) table additionalQuery
  = {| sent := [];
       returned :=
         Some (errors.withStack
                 (errors.withMessage
                    (errors.fundamental
                       ("type: " ++ reflect.Kind_String (Kind value)
                        ++ " unsupported")%string)
                    "scany: this type not yet supported")) |}.
Proof.
  intros Hall Hk. unfold Insert.
  rewrite (Insert_loop_app Sprintf_f before _ [] [] Hall).
  cbn [Insert_loop]. destruct (Kind value); try discriminate Hk; reflexivity.
Qed.

Lemma Insert_first_unsupported_witness :
  Insert (fun _ : unit => "0.000000") (fun _ => None)
         (samples.user_1
            ++ ({| reflect.Name := "Level"; reflect.Tag := [] |},
                {| Kind := reflect.Int16; String_ := ""; Int_ := 3; Float_ := tt |})
            :: [({| reflect.Name := "Active"; reflect.Tag := [] |},
                 {| Kind := reflect.Bool; String_ := ""; Int_ := 0; Float_ := tt |})])
         "my_user_table" ""
  = {| sent := [];
       returned :=
         Some (errors.withStack
                 (errors.withMessage
                    (errors.fundamental "type: int16 unsupported")
                    "scany: this type not yet supported")) |}.
Proof.
  apply (Insert_first_unsupported unit _ _ samples.user_1).
  - repeat constructor.
  - reflexivity.
Defined.

(** X8.  With supported fields only, [Insert] returns nil exactly when the
    query of its statement succeeds; when the query fails with an error,
    [Insert] returns that error under the message
    ["scany: insertion error"] and a stack annotation, and [errors.Is]
    still finds the cause. *)
Theorem Insert_query_error (float64 : Type) (Sprintf_f : float64 -> string)
        (db : Querier) (data : StructData float64)
        (table additionalQuery : string) :
  Forall (fun fv => supported (Kind (snd fv)) = true) data ->
  exists sql,
    sent (Insert Sprintf_f db data table additionalQuery) = [sql] /\
    (returned (Insert Sprintf_f db data table additionalQuery) = None <->
     db sql = None) /\
    (forall cause,
        db sql = Some cause ->
        returned (Insert Sprintf_f db data table additionalQuery)
        = Some (errors.withStack
                  (errors.withMessage cause "scany: insertion error")) /\
        errors.Is (returned (Insert Sprintf_f db data table additionalQuery))
                  (Some cause) = true).
Proof.
  intros Hall. unfold Insert.
  rewrite (Insert_loop_supported Sprintf_f data [] [] Hall). cbn [sent returned].
  eexists. split; [reflexivity|]. split.
  - destruct (db _) as [e|]; cbn; split; intros H; congruence.
  - intros cause ->. cbn [errors.Wrap errors.Is]. split; [reflexivity|].
    apply is_Wraps, Wraps_Wrap.
Qed.

Lemma Insert_query_error_witness :
  returned (Insert (fun _ : unit => "0.000000")
                   (fun _ => Some (errors.errorString 7 "connection refused"))
                   samples.user_1 "my_user_table" "")
  = Some (errors.withStack
            (errors.withMessage (errors.errorString 7 "connection refused")
                                "scany: insertion error")).
Proof.
  destruct (Insert_query_error
              unit (fun _ : unit => "0.000000")
              (fun _ => Some (errors.errorString 7 "connection refused"))
              samples.user_1 "my_user_table" "")
    as (sql & _ & _ & Hcause).
  - repeat constructor.
  - exact (proj1 (Hcause _ eq_refl)).
Defined.

(* --------------------------------------------------------------------- *)
(** ** [Select], [Get], [ScanAll], [ScanRow]: what happens to errors *)
(* --------------------------------------------------------------------- *)

Section WrapperFacts.

Lemma is_withStack_sentinel e t :
  sentinel t -> errors.is_ (errors.withStack e) t = errors.is_ e t.
Proof.
  intros Ht. cbn [errors.is_]. case_bool_decide as Heq; [|reflexivity].
  subst t. discriminate Ht.
Qed.

Lemma is_withMessage_sentinel e message t :
  sentinel t -> errors.is_ (errors.withMessage e message) t = errors.is_ e t.
Proof.
  intros Ht. cbn [errors.is_]. case_bool_decide as Heq; [|reflexivity].
  subst t. discriminate Ht.
Qed.

(** A stack annotation hides no sentinel from [errors.Is]. *)
Lemma Is_WithStack err t :
  sentinel t ->
  errors.Is (errors.WithStack err) (Some t) = errors.Is err (Some t).
Proof.
  intros Ht. destruct err as [e|]; [|reflexivity].
  now apply is_withStack_sentinel.
Qed.

Lemma Is_Wrap err message t :
  sentinel t ->
  errors.Is (errors.Wrap err message) (Some t) = errors.Is err (Some t).
Proof.
  intros Ht. destruct err as [e|]; [|reflexivity]. cbn [errors.Wrap errors.Is].
  now rewrite is_withStack_sentinel, is_withMessage_sentinel.
Qed.

Lemma WithStack_None err : errors.WithStack err = None <-> err = None.
Proof. destruct err; cbn; split; congruence. Qed.

Lemma sentinel_ErrNoRows : sentinel pgx.ErrNoRows.
Proof. reflexivity. Qed.

End WrapperFacts.

(** X9.  [Get] after a query that succeeded: it returns nil exactly when
    [dbscan.ScanOne] returned nil and [dbscan.NotFound] does not hold of
    it; and when [dbscan.NotFound] holds, [NotFound] holds of the error
    that [Get] returns, under the two stack annotations it has by then. *)
Theorem Get_after_query (Dst Arg : Type)
        (dbscan_ScanOne : Dst -> RowsAdapter -> Dst * errors.goerror)
        (dbscan_NotFound : errors.goerror -> bool)
        (db : RowsQuerier Arg) (dst : Dst) (query : string) (args : list Arg)
        (rows : pgx.Rows) :
  db query args = (rows, None) ->
  let underlying := dbscan_ScanOne dst (NewRowsAdapter rows) in
  let result := Get dbscan_ScanOne dbscan_NotFound db dst query args in
  fst result = fst underlying /\
  (snd result = None <->
   snd underlying = None /\ dbscan_NotFound (snd underlying) = false) /\
  (dbscan_NotFound (snd underlying) = true ->
   snd result = Some (errors.withStack (errors.withStack pgx.ErrNoRows)) /\
   NotFound (snd result) = true) /\
  (dbscan_NotFound (snd underlying) = false ->
   NotFound (snd result) = NotFound (snd underlying)).
Proof.
  intros Hq. cbn zeta. unfold Get, ScanOne. rewrite Hq.
  destruct (dbscan_ScanOne dst (NewRowsAdapter rows)) as [dst' err].
  cbn [fst snd].
  destruct (dbscan_NotFound err) eqn:Hnf; cbn [fst snd].
  - split; [reflexivity|]. split; [|split].
    + split; [discriminate|]. intros [_ H]. discriminate H.
    + intros _. split; reflexivity.
    + discriminate.
  - split; [reflexivity|]. split; [|split].
    + rewrite !WithStack_None. tauto.
    + discriminate.
    + intros _. unfold NotFound.
      now rewrite !Is_WithStack by apply sentinel_ErrNoRows.
Qed.

Lemma Get_after_query_witness :
  NotFound (snd (Get samples.ScanOne_no_rows samples.is_no_row_found
                     (fun (_ : string) (_ : list unit) => (samples.empty_rows, None))
                     tt "SELECT 1" []))
  = true.
Proof.
  exact (proj2 (proj1 (proj2 (proj2
           (Get_after_query unit unit samples.ScanOne_no_rows samples.is_no_row_found
              (fun _ _ => (samples.empty_rows, None)) tt "SELECT 1" []
              samples.empty_rows eq_refl))) eq_refl)).
Defined.

(** X10.  When the query itself fails, [Select] and [Get] hand back the
    destination as it was given (nothing of [dbscan] is consulted: the
    outcome is the same whatever [dbscan] would do), and return the cause
    under their message and a stack annotation, where [errors.Is] still
    finds it. *)
Theorem query_failure (Dst Arg : Type)
        (dbscan_ScanAll dbscan_ScanOne : Dst -> RowsAdapter -> Dst * errors.goerror)
        (dbscan_NotFound : errors.goerror -> bool)
        (db : RowsQuerier Arg) (dst : Dst) (query : string) (args : list Arg)
        (rows : pgx.Rows) (cause : errors.error) :
  db query args = (rows, Some cause) ->
  Select dbscan_ScanAll db dst query args
  = (dst, Some (errors.withStack
                  (errors.withMessage cause "scany: query multiple result rows"))) /\
  Get dbscan_ScanOne dbscan_NotFound db dst query args
  = (dst, Some (errors.withStack
                  (errors.withMessage cause "scany: query one result row"))) /\
  errors.Is (snd (Select dbscan_ScanAll db dst query args)) (Some cause) = true /\
  errors.Is (snd (Get dbscan_ScanOne dbscan_NotFound db dst query args))
            (Some cause) = true /\
  NotFound (snd (Get dbscan_ScanOne dbscan_NotFound db dst query args))
  = NotFound (Some cause).
Proof.
  intros Hq. unfold Select, Get. rewrite Hq. cbn [errors.Wrap snd].
  split; [reflexivity|]. split; [reflexivity|]. split; [|split].
  - apply is_Wraps, Wraps_Wrap.
  - apply is_Wraps, Wraps_Wrap.
  - unfold NotFound.
    exact (Is_Wrap (Some cause) _ _ sentinel_ErrNoRows).
Qed.

Lemma query_failure_witness :
  Get samples.ScanOne_no_rows samples.is_no_row_found
      (fun (_ : string) (_ : list unit) =>
         (samples.empty_rows, Some (errors.errorString 7 "connection refused")))
      tt "SELECT 1" []
  = (tt, Some (errors.withStack
                 (errors.withMessage (errors.errorString 7 "connection refused")
                                     "scany: query one result row"))).
Proof.
  exact (proj1 (proj2
           (query_failure unit unit samples.ScanOne_no_rows samples.ScanOne_no_rows
              samples.is_no_row_found
              (fun _ _ => (samples.empty_rows,
                           Some (errors.errorString 7 "connection refused")))
              tt "SELECT 1" [] samples.empty_rows _ eq_refl))).
Defined.

(** X11.  [ScanAll] and [ScanRow], and [Select] after a query that
    succeeded, return nil exactly when the function of [dbscan] beneath
    them does, hand back the destination it filled, and keep every
    sentinel of its error within reach of [errors.Is]; none of them puts
    [pgx.ErrNoRows] in place of an error, so [NotFound] holds of their
    result only if it holds of the error beneath. *)
Theorem scans_hand_errors_through (Dst Arg : Type)
        (dbscan_ScanAll dbscan_ScanRow : Dst -> RowsAdapter -> Dst * errors.goerror)
        (db : RowsQuerier Arg) (dst : Dst) (query : string) (args : list Arg)
        (rows : pgx.Rows) :
  db query args = (rows, None) ->
  let all := dbscan_ScanAll dst (NewRowsAdapter rows) in
  let one := dbscan_ScanRow dst (NewRowsAdapter rows) in
  (ScanAll dbscan_ScanAll dst rows = (fst all, errors.WithStack (snd all)) /\
   ScanRow dbscan_ScanRow dst rows = (fst one, errors.WithStack (snd one)) /\
   Select dbscan_ScanAll db dst query args
   = (fst all, errors.WithStack (errors.WithStack (snd all)))) /\
  ((snd (ScanAll dbscan_ScanAll dst rows) = None <-> snd all = None) /\
   (snd (ScanRow dbscan_ScanRow dst rows) = None <-> snd one = None) /\
   (snd (Select dbscan_ScanAll db dst query args) = None <-> snd all = None)) /\
  (forall t, sentinel t ->
     errors.Is (snd (ScanAll dbscan_ScanAll dst rows)) (Some t)
     = errors.Is (snd all) (Some t) /\
     errors.Is (snd (ScanRow dbscan_ScanRow dst rows)) (Some t)
     = errors.Is (snd one) (Some t) /\
     errors.Is (snd (Select dbscan_ScanAll db dst query args)) (Some t)
     = errors.Is (snd all) (Some t)) /\
  NotFound (snd (Select dbscan_ScanAll db dst query args)) = NotFound (snd all).
Proof.
  intros Hq. cbn zeta. unfold Select, ScanAll, ScanRow. rewrite Hq.
  destruct (dbscan_ScanAll dst (NewRowsAdapter rows)) as [d1 e1].
  destruct (dbscan_ScanRow dst (NewRowsAdapter rows)) as [d2 e2].
  cbn [fst snd]. split; [repeat split|]. split; [|split].
  - rewrite !WithStack_None. tauto.
  - intros t Ht. now rewrite !Is_WithStack.
  - unfold NotFound. now rewrite !Is_WithStack by apply sentinel_ErrNoRows.
Qed.

Lemma scans_hand_errors_through_witness :
  Select samples.ScanOne_no_rows
         (fun (_ : string) (_ : list unit) => (samples.empty_rows, None))
         tt "SELECT 1" []
  = (tt, Some (errors.withStack (errors.withStack samples.no_row_found))).
Proof.
  exact (proj2 (proj2 (proj1
           (scans_hand_errors_through unit unit samples.ScanOne_no_rows
              samples.ScanOne_no_rows
              (fun _ _ => (samples.empty_rows, None)) tt "SELECT 1" []
              samples.empty_rows eq_refl)))).
Defined.

(* --------------------------------------------------------------------- *)
(** ** More about [RowsAdapter.Columns] *)
(* --------------------------------------------------------------------- *)

Lemma Columns_loop_checked_spec (fds : list pgx.FieldDescription) :
  forall (i : nat) (columns : list string),
    i + length fds = length columns ->
    Columns_loop_checked i fds columns = Some (Columns_loop i fds columns).
Proof.
  induction fds as [|fd fds IH]; intros i columns Hlen; [reflexivity|].
  cbn [Columns_loop_checked Columns_loop length] in *.
  rewrite decide_True by lia.
  apply IH. rewrite length_insert. lia.
Qed.

(** X12.  No assignment of [Columns] falls outside the slice it made: with
    Go's index check in the loop, [Columns] ends without a panic, in the
    result that the loop gives. *)
Theorem Columns_in_range (ra : RowsAdapter) :
  Columns_checked ra = Some (Columns ra) /\
  Columns_checked ra
  = Some (map (fun fd => string_of_list_byte (pgx.Name fd))
              (pgx.FieldDescriptions (Rows ra)), None).
Proof.
  assert (H : Columns_checked ra = Some (Columns ra)).
  { unfold Columns_checked, Columns.
    now rewrite Columns_loop_checked_spec by (now rewrite length_replicate). }
  split; [exact H|]. rewrite H. f_equal. unfold Columns.
  rewrite Columns_loop_spec by (now rewrite length_replicate).
  reflexivity.
Qed.

(* --------------------------------------------------------------------- *)
(** ** More about the materializer of the engine *)
(* --------------------------------------------------------------------- *)

Section MaterializeMore.
Import dbscan.

Lemma repeated_NoDup (cols : list string) : forall seen : gset string,
  NoDup cols -> (forall c, c ∈ cols -> c ∉ seen) -> repeated seen cols = None.
Proof.
  induction cols as [|c cols IH]; intros seen Hnd Hseen; [reflexivity|].
  apply NoDup_cons in Hnd as [Hc Hnd]. cbn [repeated].
  rewrite decide_False by (apply Hseen; left).
  apply IH; [assumption|]. intros c' Hc' Hin.
  apply elem_of_union in Hin as [Hin|Hin].
  - apply elem_of_singleton in Hin as ->. contradiction.
  - apply (Hseen c'); [now right|assumption].
Qed.

(** What a materialization into a struct that succeeded has done. *)
Lemma materialize_struct_None idx r ms fields d' :
  materialize idx r (StructDst ms fields) = (d', None) ->
  exists paths,
    NoDup (columns r) /\
    Forall2 (fun (cx : string * native) (p : path) => idx !! (fst cx) = Some p)
            (cells r) paths /\
    d' = StructDst ms (commit ms fields (zip paths (map snd (cells r)))).
Proof.
  unfold materialize, populate, columns.
  destruct (repeated ∅ (map fst (cells r))) as [c0|] eqn:Hrep; [discriminate|].
  destruct (bind idx (map fst (cells r))) as [e|paths] eqn:Hbind; [discriminate|].
  destruct (fault r); [discriminate|]. intros [= <-].
  exists paths. split; [now apply repeated_None in Hrep|].
  split; [now apply bind_inr|reflexivity].
Qed.

Lemma bind_first_unmapped (idx : index) (before : list string) :
  forall c after,
    Forall (fun c' => is_Some (idx !! c')) before ->
    idx !! c = None ->
    bind idx (before ++ c :: after) = inl (UnmappedColumn c).
Proof.
  induction before as [|c0 before IH]; intros c after Hall Hc.
  - cbn [app bind]. destruct (idx !! c) eqn:E; [discriminate Hc|reflexivity].
  - inversion Hall as [|? ? [p Hp] Hall']; subst. cbn [app bind].
    destruct (idx !! c0) eqn:E; [|discriminate Hp].
    now rewrite (IH c after Hall' Hc).
Qed.

Lemma foldl_insert_lookup (cs : list (string * native)) :
  forall (entries : gmap string native),
    NoDup (map fst cs) ->
    (forall c x, (c, x) ∈ cs ->
       foldl (fun m cx => <[fst cx := snd cx]> m) entries cs !! c = Some x) /\
    (forall k, k ∉ map fst cs ->
       foldl (fun m cx => <[fst cx := snd cx]> m) entries cs !! k = entries !! k).
Proof.
  induction cs as [|[c0 x0] cs IH]; intros entries Hnd.
  - split; [intros c x H; inversion H|reflexivity].
  - cbn [map fst] in Hnd. apply NoDup_cons in Hnd as [Hc0 Hnd].
    destruct (IH (<[c0 := x0]> entries) Hnd) as [Hin Hout].
    cbn [foldl fst snd]. split.
    + intros c x H. apply elem_of_cons in H as [[= -> ->]|H]; [|now apply Hin].
      rewrite (Hout c0 Hc0). apply lookup_insert_eq.
    + intros k Hk. cbn [map fst] in Hk. apply not_elem_of_cons in Hk as [Hne Hk].
      rewrite (Hout k Hk). now apply lookup_insert_ne.
Qed.

Lemma zip_fst_snd_cells (cs : list (string * native)) :
  zip (map fst cs) (map snd cs) = cs.
Proof. induction cs as [|[c x] cs IH]; [reflexivity|]. cbn. now rewrite IH. Qed.

End MaterializeMore.

(** X13.  (The engine of [dbscan] as modelled from the specification; the
    cases are those of TestRowScannerDoScan_StructDestination_Succeeds.)
    After a row has been materialized into a struct of the indexed shape,
    the field that each column of the row maps to holds the row's value
    for that column, the destination still is a value of the shape, and
    a member below which no column maps is as it was. *)
Theorem struct_destination_filled
        (ms : list dbscan.member) (idx : dbscan.index)
        (fields : list dbscan.value) (r : dbscan.row) (d' : dbscan.destination) :
  dbscan.build_index ms = inr idx ->
  Forall2 dbscan.fits ms fields ->
  dbscan.materialize idx r (dbscan.StructDst ms fields) = (d', None) ->
  exists fields',
    d' = dbscan.StructDst ms fields' /\
    Forall2 dbscan.fits ms fields' /\
    (forall c x p,
        (c, x) ∈ dbscan.cells r -> idx !! c = Some p ->
        dbscan.read fields' p = Some (dbscan.Leaf x)) /\
    (forall c, c ∈ dbscan.columns r -> is_Some (idx !! c)) /\
    (forall i,
        (forall c p, c ∈ dbscan.columns r -> idx !! c = Some p -> head p <> Some i) ->
        fields' !! i = fields !! i).
Proof.
  intros Hidx Hfit Hm.
  destruct (materialize_struct_None _ _ _ _ _ Hm) as (paths & Hnd & Hbind & ->).
  remember (zip paths (map snd (dbscan.cells r))) as bound eqn:Hbound.
  assert (Hpaths : map fst bound = paths)
    by (rewrite Hbound; exact (bound_paths idx _ _ Hbind)).
  assert (Hcol : forall q y, (q, y) ∈ bound ->
                   exists c, c ∈ dbscan.columns r /\ idx !! c = Some q).
  { intros q y Hin.
    assert (Hq : q ∈ paths).
    { rewrite <- Hpaths. apply list_elem_of_fmap. now exists (q, y). }
    exact (bound_column idx _ _ _ Hbind Hq). }
  assert (Hleaf : Forall (fun b => dbscan.leaf_path ms (fst b)) bound).
  { apply Forall_forall. intros [q y] Hin. cbn [fst].
    destruct (Hcol q y Hin) as (c & _ & Hc).
    apply (resolve_leaf_path ms c), (build_index_lookup _ _ _ _ Hidx), Hc. }
  exists (dbscan.commit ms fields bound). split; [reflexivity|].
  split; [now apply commit_fits|]. split; [|split].
  - intros c x p Hin Hl. apply commit_read; auto.
    + rewrite Hpaths. apply (bound_NoDup idx (dbscan.cells r) paths); auto.
      intros c1 c2 q. apply (build_index_inj _ _ _ _ _ Hidx).
    + rewrite Hbound. now apply (bound_elem idx _ _ c).
  - intros c Hc. unfold dbscan.columns in Hc.
    apply list_elem_of_fmap in Hc as ([c' x] & -> & Hin).
    apply list_elem_of_lookup in Hin as (k & Hk).
    destruct (Forall2_lookup_l _ _ _ _ _ Hbind Hk) as (p & _ & Hp).
    now exists p.
  - intros i Hnone. apply commit_lookup_other.
    apply Forall_forall. intros [q y] Hin. cbn [fst].
    destruct (Hcol q y Hin) as (c & Hc & Hl). exact (Hnone c q Hc Hl).
Qed.

Lemma struct_destination_filled_witness :
  exists fields',
    fst (dbscan.materialize
           {[ "foo_nested" := [0; 0]; "foo" := [1]; "bar" := [2] ]}
           (samples.row_of [("bar", "bar val"); ("foo_nested", "foo nested val")])
           (samples.zero_struct samples.by_ptr))
    = dbscan.StructDst samples.by_ptr fields' /\
    dbscan.read fields' [0; 0] = Some (dbscan.Leaf (dbscan.Text "foo nested val")) /\
    dbscan.read fields' [2] = Some (dbscan.Leaf (dbscan.Text "bar val")) /\
    fields' !! 1 = Some (dbscan.Leaf dbscan.Null).
Proof.
  destruct (struct_destination_filled
              samples.by_ptr
              {[ "foo_nested" := [0; 0]; "foo" := [1]; "bar" := [2] ]}
              (map dbscan.zero samples.by_ptr)
              (samples.row_of [("bar", "bar val"); ("foo_nested", "foo nested val")])
              (fst (dbscan.materialize
                      {[ "foo_nested" := [0; 0]; "foo" := [1]; "bar" := [2] ]}
                      (samples.row_of [("bar", "bar val");
                                       ("foo_nested", "foo nested val")])
                      (samples.zero_struct samples.by_ptr))))
    as (fields' & Hd & _ & Hread & _ & Hkept).
  - vm_compute. reflexivity.
  - apply fits_zeros.
  - vm_compute. reflexivity.
  - exists fields'. split; [exact Hd|]. split; [|split].
    + apply (Hread "foo_nested"); [right; left|reflexivity].
    + apply (Hread "bar"); [left|reflexivity].
    + rewrite (Hkept 1); [reflexivity|].
      intros c p Hc Hl.
      apply elem_of_cons in Hc as [->|Hc];
        [|apply elem_of_cons in Hc as [->|Hc]; [|inversion Hc]];
        vm_compute in Hl; injection Hl as <-; discriminate.
Defined.

(** X14.  (The engine of [dbscan] as modelled from the specification; the
    cases are those of
    TestRowScannerDoScan_InvalidStructDestination_ReturnsErr.)  A row
    whose columns are distinct and one of which no member of the struct
    claims is refused with [UnmappedColumn] naming the first such column,
    and the destination is handed back as it was; a member of the struct
    that is unexported or carries the ignore marker claims no column,
    nor does anything beneath it. *)
Theorem unmapped_column
        (ms : list dbscan.member) (idx : dbscan.index)
        (fields : list dbscan.value) (r : dbscan.row)
        (before after : list string) (c : string) :
  dbscan.columns r = before ++ c :: after ->
  NoDup (dbscan.columns r) ->
  Forall (fun c' => is_Some (idx !! c')) before ->
  idx !! c = None ->
  dbscan.materialize idx r (dbscan.StructDst ms fields)
  = (dbscan.StructDst ms fields, Some (dbscan.UnmappedColumn c)) /\
  (dbscan.build_index ms = inr idx ->
   forall i m,
     ms !! i = Some m -> passed_over m ->
     forall c' p, idx !! c' = Some p -> head p <> Some i).
Proof.
  intros Hcols Hnd Hall Hc. split.
  - unfold dbscan.materialize.
    rewrite (repeated_NoDup _ ∅ Hnd) by (intros ? _; apply not_elem_of_empty).
    now rewrite Hcols, (bind_first_unmapped idx before c after Hall Hc).
  - intros Hidx i m Hm Hskip c' p Hl Hhead.
    apply (build_index_lookup _ _ _ _ Hidx) in Hl.
    apply elem_of_resolve_members in Hl as (j & m' & q & Hj & -> & Hq).
    cbn in Hhead. injection Hhead as ->.
    assert (m' = m) as -> by congruence.
    destruct m as [name tag exported|name tag exported b members];
      [|rewrite resolve_member_Embedded in Hq];
      cbn [dbscan.resolve_member passed_over] in *;
      destruct Hskip as [->| ->]; try (inversion Hq; fail);
      destruct exported; inversion Hq.
Qed.

Lemma unmapped_column_witness :
  dbscan.materialize {[ "bar" := [1] ]}
                     (samples.row_of [("bar", "bar val"); ("foo", "foo val")])
                     (samples.zero_struct [dbscan.Field "foo" None false;
                                           dbscan.Field "Bar" None true])
  = (samples.zero_struct [dbscan.Field "foo" None false; dbscan.Field "Bar" None true],
     Some (dbscan.UnmappedColumn "foo")).
Proof.
  refine (proj1 (unmapped_column _ {[ "bar" := [1] ]} _
                   (samples.row_of [("bar", "bar val"); ("foo", "foo val")])
                   ["bar"] [] "foo" eq_refl _ _ eq_refl)).
  - apply (bool_decide_unpack _). vm_compute. exact I.
  - repeat constructor. now exists [1].
Defined.

(** X15.  (The engine of [dbscan] as modelled from the specification; the
    cases are those of TestRowScannerDoScan_PrimitiveTypeDestination_Succeeds
    and ..._InvalidPrimitiveTypeDestination_ReturnsErr.)  A row of
    distinct columns that the row source populates goes into a scalar
    destination exactly when it has one column, whose value the scalar
    then holds; with any other number of columns the materializer fails
    with [InvalidScanRowCount] carrying that number, and the scalar is as
    it was. *)
Theorem scalar_destination
        (idx : dbscan.index) (r : dbscan.row) (x : dbscan.native) :
  NoDup (dbscan.columns r) ->
  dbscan.fault r = None ->
  (forall c v,
      dbscan.cells r = [(c, v)] ->
      dbscan.materialize idx r (dbscan.ScalarDst x) = (dbscan.ScalarDst v, None)) /\
  (length (dbscan.columns r) <> 1 ->
   dbscan.materialize idx r (dbscan.ScalarDst x)
   = (dbscan.ScalarDst x,
      Some (dbscan.InvalidScanRowCount (length (dbscan.columns r))))) /\
  (snd (dbscan.materialize idx r (dbscan.ScalarDst x)) = None <->
   length (dbscan.columns r) = 1).
Proof.
  intros Hnd Hfault. unfold dbscan.materialize, dbscan.populate.
  rewrite (repeated_NoDup _ ∅ Hnd) by (intros ? _; apply not_elem_of_empty).
  rewrite Hfault. unfold dbscan.columns.
  destruct (dbscan.cells r) as [|[c0 v0] [|[c1 v1] cs]]; cbn [map fst snd length].
  - split; [discriminate|]. split; [reflexivity|]. split; discriminate.
  - split; [intros c v [= -> ->]; reflexivity|]. split; [congruence|].
    cbn. tauto.
  - split; [discriminate|]. split; [reflexivity|]. cbn. split; discriminate.
Qed.

Lemma scalar_destination_witness :
  dbscan.materialize ∅ (samples.row_of [("foo", "foo val"); ("bar", "bar val")])
                     (dbscan.ScalarDst dbscan.Null)
  = (dbscan.ScalarDst dbscan.Null, Some (dbscan.InvalidScanRowCount 2)).
Proof.
  refine (proj1 (proj2 (scalar_destination
                          ∅ (samples.row_of [("foo", "foo val"); ("bar", "bar val")])
                          dbscan.Null _ eq_refl)) _).
  - apply (bool_decide_unpack _). vm_compute. exact I.
  - discriminate.
Defined.

(** X16.  (The engine of [dbscan] as modelled from the specification; the
    case is that of TestRowScannerDoScan_MapDestination_Succeeds.)  After
    a row has been materialized into a mapping, the mapping has under
    each column name of the row the row's value for that column, and
    every other key is as it was. *)
Theorem map_destination
        (idx : dbscan.index) (r : dbscan.row) (keys : dbscan.key_type)
        (entries : gmap string dbscan.native) (d' : dbscan.destination) :
  dbscan.materialize idx r (dbscan.MapDst keys entries) = (d', None) ->
  exists entries' : gmap string dbscan.native,
    d' = dbscan.MapDst keys entries' /\
    (forall c x, (c, x) ∈ dbscan.cells r -> entries' !! c = Some x) /\
    (forall k, k ∉ dbscan.columns r -> entries' !! k = entries !! k).
Proof.
  unfold dbscan.materialize, dbscan.populate, dbscan.columns.
  destruct (dbscan.repeated ∅ (map fst (dbscan.cells r))) as [c0|] eqn:Hrep;
    [discriminate|].
  destruct (dbscan.fault r); [discriminate|]. intros [= <-].
  apply repeated_None in Hrep as [Hnd _].
  rewrite zip_fst_snd_cells.
  destruct (foldl_insert_lookup (dbscan.cells r) entries Hnd) as [Hin Hout].
  eexists. split; [reflexivity|]. split; assumption.
Qed.

Lemma map_destination_witness :
  exists entries' : gmap string dbscan.native,
    fst (dbscan.materialize ∅ (samples.row_of [("foo", "foo val"); ("bar", "bar val")])
                            (dbscan.MapDst dbscan.StringKey {[ "baz" := dbscan.Null ]}))
    = dbscan.MapDst dbscan.StringKey entries' /\
    entries' !! "foo" = Some (dbscan.Text "foo val") /\
    entries' !! "baz" = Some dbscan.Null.
Proof.
  destruct (map_destination
              ∅ (samples.row_of [("foo", "foo val"); ("bar", "bar val")])
              dbscan.StringKey {[ "baz" := dbscan.Null ]} _ eq_refl)
    as (entries' & Hd & Hin & Hout).
  exists entries'. split; [now rewrite <- Hd|]. split.
  - apply Hin. left.
  - rewrite Hout; [reflexivity|]. apply (bool_decide_unpack _). vm_compute. exact I.
Defined.
